(** * Method relationship graph: similarity scoring, graph building,
      cluster regions and semantic zoom

    A shallow embedding of [src/viz/RelationshipGraphViz.js] (and of the
    part of the React wrapper that consumes its handle).

    Conventions of the embedding:
    - JavaScript arrays are lists, [Map]s keyed by identifiers are [gmap]s
      (or association lists where the insertion order is observable), the
      [Set] of link keys is a [gset string];
    - identifiers, tags and names are strings; numbers that hold scores,
      strengths and zoom scales are exact rationals ([Q]), so rounding of
      IEEE doubles is not modelled; counters are natural numbers;
    - closures that mutate local variables ([links], [addedLinks],
      [nodeLinkCounts], [degreeMap]) become explicit state passing;
    - optional fields ([tasks], [tags], [related_method_ids],
      [references?.year]) are [option]s and every [x || []] of the source
      is a [default []]. *)

From Stdlib Require Import QArith Qminmax Qabs Lqa String Ascii.
From stdpp Require Import gmap strings list fin_maps sorting.

Local Open Scope string_scope.
Local Open Scope list_scope.

(** ** The catalog (input records) *)

Module Method.
Record t := mk {
  id : string;
  name : string;
  pipeline_step : string;
  modalities : list string;
  tasks : option (list string);
  tags : option (list string);
  maturity : string;
  evidence_type : string;
  related_method_ids : option (list string);
  year : option Z;           (* references?.year *)
}.
End Method.

Module Step.
Record t := mk {
  id : string;
  name : string;
  order : Z;
}.
End Step.

Record Catalog := {
  methods : list Method.t;
  pipelineSteps : list Step.t;
}.

(** ** Similarity scorer *)

(** [xs.filter((x) => ys.includes(x))] *)
Definition shared (xs ys : list string) : list string :=
  filter (.∈ ys) xs.

(** [pipelineSteps.find((s) => s.id === stepId)] *)
Definition findStep (pipelineSteps : list Step.t) (stepId : string)
  : option Step.t :=
  List.find (λ s, String.eqb (Step.id s) stepId) pipelineSteps.

Definition calculateSimilarity
    (method1 method2 : Method.t) (pipelineSteps : list Step.t) : Q :=
  if String.eqb (Method.id method1) (Method.id method2) then 0%Q else
  let score := 0%Q in
  (* Shared modalities (high weight) *)
  let sharedModalities :=
    shared (Method.modalities method1) (Method.modalities method2) in
  let score := (score + inject_Z (Z.of_nat (length sharedModalities)) * 0.25)%Q in
  (* Shared tasks (high weight) *)
  let sharedTasks :=
    shared (default [] (Method.tasks method1))
           (default [] (Method.tasks method2)) in
  let score := (score + inject_Z (Z.of_nat (length sharedTasks)) * 0.2)%Q in
  (* Shared tags (medium weight) *)
  let sharedTags :=
    shared (default [] (Method.tags method1))
           (default [] (Method.tags method2)) in
  let score := (score + inject_Z (Z.of_nat (length sharedTags)) * 0.1)%Q in
  (* Pipeline step proximity *)
  let step1 := findStep pipelineSteps (Method.pipeline_step method1) in
  let step2 := findStep pipelineSteps (Method.pipeline_step method2) in
  let score :=
    match step1, step2 with
    | Some s1, Some s2 =>
        let stepDiff := Z.abs (Step.order s1 - Step.order s2) in
        if (stepDiff =? 0)%Z then (score + 0.15)%Q
        else if (stepDiff =? 1)%Z then (score + 0.05)%Q
        else score
    | _, _ => score
    end in
  (* Same maturity level (low weight) *)
  let score :=
    if String.eqb (Method.maturity method1) (Method.maturity method2)
    then (score + 0.05)%Q else score in
  (* Same evidence type (low weight) *)
  let score :=
    if String.eqb (Method.evidence_type method1) (Method.evidence_type method2)
    then (score + 0.05)%Q else score in
  Qmin score 1.

(** ** Graph builder *)

Inductive RelType := explicit | sameStep | sharedModality | sharedTask | similar.

Global Instance RelType_eq_dec : EqDecision RelType.
Proof. solve_decision. Defined.

Record RelStyle := {
  color : string;
  strokeWidth : Q;
  dashArray : option string;
  label : string;
}.

Definition RELATIONSHIP_TYPES (type : RelType) : RelStyle :=
  match type with
  | explicit =>
      {| color := "#88c0d0"; strokeWidth := 2.5; dashArray := None;
         label := "Explicitly Related" |}
  | sameStep =>
      {| color := "rgba(136, 192, 208, 0.3)"; strokeWidth := 1;
         dashArray := Some "3,3"; label := "Same Pipeline Step" |}
  | sharedModality =>
      {| color := "rgba(163, 190, 140, 0.4)"; strokeWidth := 1.5;
         dashArray := Some "5,3"; label := "Shared Modality" |}
  | sharedTask =>
      {| color := "rgba(180, 142, 173, 0.4)"; strokeWidth := 1.5;
         dashArray := Some "2,2"; label := "Shared Task" |}
  | similar =>
      {| color := "rgba(235, 203, 139, 0.5)"; strokeWidth := 1.5;
         dashArray := Some "4,4"; label := "Similar Methods" |}
  end.

Definition TOKENS_accent : string := "#88c0d0".

Module Node.
Record t := mk {
  id : string;
  name : string;
  shortName : string;
  pipelineStep : string;
  modalities : list string;
  tasks : list string;
  tags : list string;
  maturity : string;
  evidenceType : string;
  relatedIds : list string;
  year : option Z;
  color : string;
  degree : option nat;       (* undefined until the degrees are computed *)
}.

Definition set_degree (d : nat) (n : t) : t :=
  mk (id n) (name n) (shortName n) (pipelineStep n) (modalities n) (tasks n)
     (tags n) (maturity n) (evidenceType n) (relatedIds n) (year n) (color n)
     (Some d).
End Node.

Module Link.
Record t := mk {
  source : string;
  target : string;
  type : RelType;
  strength : Q;
  style : RelStyle;          (* ...RELATIONSHIP_TYPES[type] *)
}.
End Link.

(** The options of [buildGraphData] after destructuring with defaults.
    [maxSimilarLinks] counts links, so it is a natural number. *)
Record Options := {
  showExplicitRelations : bool;
  showSimilarMethods : bool;
  similarityThreshold : Q;
  showSameStepLinks : bool;
  showSharedModalityLinks : bool;
  showSharedTaskLinks : bool;
  maxSimilarLinks : nat;
}.

Definition defaultOptions : Options :=
  {| showExplicitRelations := true;
     showSimilarMethods := true;
     similarityThreshold := 0.35;
     showSameStepLinks := false;
     showSharedModalityLinks := false;
     showSharedTaskLinks := false;
     maxSimilarLinks := 3 |}.

Record Graph := {
  nodes : list Node.t;
  links : list Link.t;
}.

(** The two locals the [addLink] closure captures. *)
Record LinkState := {
  st_links : list Link.t;
  addedLinks : gset string;
}.

Definition emptyLinks : LinkState := {| st_links := []; addedLinks := ∅ |}.

(** [[source, target].sort().join('--')]: the default sort orders two
    strings by code unit, and swaps them only when the second is smaller. *)
Definition linkKey (source target : string) : string :=
  String.concat "--"
    (if String.ltb target source then [target; source] else [source; target]).

Definition addLink (st : LinkState)
    (source target : string) (type : RelType) (strength : Q) : LinkState :=
  let key := linkKey source target in
  if bool_decide (key ∉ addedLinks st) && negb (String.eqb source target) then
    {| st_links :=
         (st_links st ++
           [Link.mk source target type strength (RELATIONSHIP_TYPES type)])%list;
       addedLinks := {[key]} ∪ addedLinks st |}
  else st.

(** [for (i = 0; i < l.length; i++) for (j = i + 1; j < l.length; j++)
    body(l[i], l[j])], threading the state the body mutates. *)
Fixpoint forPairs {S A : Type} (body : S → A → A → S) (st : S) (l : list A) : S :=
  match l with
  | [] => st
  | x :: rest => forPairs body (foldl (λ st y, body st x y) st rest) rest
  end.

Section Builder.
Variable STEP_COLORS : string → option string.   (* from ./PipelineViz *)

Definition createNode (method : Method.t) : Node.t :=
  {| Node.id := Method.id method;
     Node.name := Method.name method;
     Node.shortName :=
       if (30 <? String.length (Method.name method))%nat
       then (substring 0 27 (Method.name method) ++ "...")%string
       else Method.name method;
     Node.pipelineStep := Method.pipeline_step method;
     Node.modalities := Method.modalities method;
     Node.tasks := default [] (Method.tasks method);
     Node.tags := default [] (Method.tags method);
     Node.maturity := Method.maturity method;
     Node.evidenceType := Method.evidence_type method;
     Node.relatedIds := default [] (Method.related_method_ids method);
     Node.year := Method.year method;
     Node.color :=
       default TOKENS_accent (STEP_COLORS (Method.pipeline_step method));
     Node.degree := None |}.

(** [new Map(nodes.map((n) => [n.id, n]))]: a later entry replaces an
    earlier one with the same key. *)
Definition buildNodeMap (nodes : list Node.t) : gmap string Node.t :=
  foldl (λ m n, <[Node.id n := n]> m) ∅ nodes.

(** *** The five link-generation stages *)

(** 1. Explicit relationships from data *)
Definition explicitStage (methods : list Method.t)
    (nodeMap : gmap string Node.t) (st : LinkState) : LinkState :=
  foldl (λ st method,
    foldl (λ st relatedId,
      if bool_decide (is_Some (nodeMap !! relatedId))
      then addLink st (Method.id method) relatedId explicit 1
      else st)
    st (default [] (Method.related_method_ids method)))
  st methods.

(** 2. Same pipeline step links *)
Definition sameStepStage (methods : list Method.t)
    (pipelineSteps : list Step.t) (st : LinkState) : LinkState :=
  foldl (λ st step,
    let stepMethods :=
      List.filter (λ m, String.eqb (Method.pipeline_step m) (Step.id step))
                  methods in
    forPairs (λ st mi mj,
      addLink st (Method.id mi) (Method.id mj) sameStep 0.3)
    st stepMethods)
  st pipelineSteps.

(** 3. Shared modality links *)
Definition sharedModalityStage (methods : list Method.t)
    (st : LinkState) : LinkState :=
  forPairs (λ st mi mj,
    let shared_ := shared (Method.modalities mi) (Method.modalities mj) in
    if (0 <? length shared_)%nat
       && negb (String.eqb (Method.pipeline_step mi) (Method.pipeline_step mj))
    then addLink st (Method.id mi) (Method.id mj) sharedModality
                 (0.4 + inject_Z (Z.of_nat (length shared_)) * 0.1)%Q
    else st)
  st methods.

(** 4. Shared task links *)
Definition sharedTaskStage (methods : list Method.t)
    (st : LinkState) : LinkState :=
  forPairs (λ st mi mj,
    let shared_ := shared (default [] (Method.tasks mi))
                          (default [] (Method.tasks mj)) in
    if (0 <? length shared_)%nat
       && negb (String.eqb (Method.pipeline_step mi) (Method.pipeline_step mj))
    then addLink st (Method.id mi) (Method.id mj) sharedTask
                 (0.3 + inject_Z (Z.of_nat (length shared_)) * 0.15)%Q
    else st)
  st methods.

(** 5. Similar methods: the candidate list, its sort, the capped loop *)
Record Similarity := {
  sim_source : string;
  sim_target : string;
  similarity : Q;
}.

Definition collectSimilarities (methods : list Method.t)
    (pipelineSteps : list Step.t) (similarityThreshold : Q)
  : list Similarity :=
  forPairs (λ similarities mi mj,
    let sim := calculateSimilarity mi mj pipelineSteps in
    if Qle_bool similarityThreshold sim
    then (similarities ++
           [{| sim_source := Method.id mi; sim_target := Method.id mj;
               similarity := sim |}])%list
    else similarities)
  [] methods.

(** [similarities.sort((a, b) => b.similarity - a.similarity)]: a stable
    sort into descending similarity; an element moves behind exactly the
    elements that are strictly more similar. *)
Fixpoint sortInsert (a : Similarity) (sorted : list Similarity)
  : list Similarity :=
  match sorted with
  | [] => [a]
  | b :: rest =>
      if negb (Qle_bool (similarity b) (similarity a))
      then b :: sortInsert a rest
      else a :: b :: rest
  end.

Definition sortBySimilarity (similarities : list Similarity)
  : list Similarity :=
  foldr sortInsert [] similarities.

Definition similarStep (maxSimilarLinks : nat)
    (acc : LinkState * gmap string nat) (s : Similarity)
  : LinkState * gmap string nat :=
  let '(st, nodeLinkCounts) := acc in
  let sourceCount := default 0%nat (nodeLinkCounts !! sim_source s) in
  let targetCount := default 0%nat (nodeLinkCounts !! sim_target s) in
  if (sourceCount <? maxSimilarLinks)%nat && (targetCount <? maxSimilarLinks)%nat
  then (addLink st (sim_source s) (sim_target s) similar (similarity s),
        <[sim_target s := (targetCount + 1)%nat]>
          (<[sim_source s := (sourceCount + 1)%nat]> nodeLinkCounts))
  else acc.

Definition similarStage (methods : list Method.t)
    (pipelineSteps : list Step.t) (similarityThreshold : Q)
    (maxSimilarLinks : nat) (st : LinkState) : LinkState :=
  let similarities :=
    sortBySimilarity
      (collectSimilarities methods pipelineSteps similarityThreshold) in
  fst (foldl (similarStep maxSimilarLinks) (st, ∅) similarities).

(** *** Degrees *)

Definition degreeStep (degreeMap : gmap string nat) (link : Link.t)
  : gmap string nat :=
  let degreeMap :=
    <[Link.source link :=
        (default 0%nat (degreeMap !! Link.source link) + 1)%nat]> degreeMap in
  <[Link.target link :=
      (default 0%nat (degreeMap !! Link.target link) + 1)%nat]> degreeMap.

Definition buildDegreeMap (links : list Link.t) : gmap string nat :=
  foldl degreeStep ∅ links.

(** *** [buildGraphData] *)

Definition when {S : Type} (flag : bool) (stage : S → S) (st : S) : S :=
  if flag then stage st else st.

Definition buildLinks (data : Catalog) (options : Options)
    (nodeMap : gmap string Node.t) : LinkState :=
  let st := emptyLinks in
  let st := when (showExplicitRelations options)
              (explicitStage (methods data) nodeMap) st in
  let st := when (showSameStepLinks options)
              (sameStepStage (methods data) (pipelineSteps data)) st in
  let st := when (showSharedModalityLinks options)
              (sharedModalityStage (methods data)) st in
  let st := when (showSharedTaskLinks options)
              (sharedTaskStage (methods data)) st in
  when (showSimilarMethods options)
    (similarStage (methods data) (pipelineSteps data)
       (similarityThreshold options) (maxSimilarLinks options)) st.

Definition buildGraphData (data : Catalog) (options : Options) : Graph :=
  let nodes := map createNode (methods data) in
  let nodeMap := buildNodeMap nodes in
  let links := st_links (buildLinks data options nodeMap) in
  let degreeMap := buildDegreeMap links in
  let nodes :=
    map (λ node,
           Node.set_degree (default 0%nat (degreeMap !! Node.id node)) node)
        nodes in
  {| nodes := nodes; links := links |}.
End Builder.

(** ** Cluster regions *)

Record Cluster := {
  cl_id : string;
  cl_name : string;
  cl_color : option string;    (* STEP_COLORS[step.id] *)
  cl_nodes : list Node.t;
}.

(** The [clusters] map is read back in insertion order, so it is an
    association list: [set] on a present key replaces the value where it
    stands, [set] on a new key appends. *)
Fixpoint mapSet {V : Type} (m : list (string * V)) (k : string) (v : V)
  : list (string * V) :=
  match m with
  | [] => [(k, v)]
  | (k', v') :: rest =>
      if String.eqb k' k then (k, v) :: rest else (k', v') :: mapSet rest k v
  end.

Definition mapGet {V : Type} (m : list (string * V)) (k : string) : option V :=
  snd <$> List.find (λ kv, String.eqb (fst kv) k) m.

Section Clusters.
Variable STEP_COLORS : string → option string.

Definition pushNode (node : Node.t) (cluster : Cluster) : Cluster :=
  {| cl_id := cl_id cluster; cl_name := cl_name cluster;
     cl_color := cl_color cluster;
     cl_nodes := (cl_nodes cluster ++ [node])%list |}.

(** The first [forEach]: one empty region per step id. *)
Definition initClusters (pipelineSteps : list Step.t)
  : list (string * Cluster) :=
  foldl (λ clusters step,
           mapSet clusters (Step.id step)
             {| cl_id := Step.id step; cl_name := Step.name step;
                cl_color := STEP_COLORS (Step.id step); cl_nodes := [] |})
        [] pipelineSteps.

(** The body of the second [forEach]. *)
Definition assignNode (clusters : list (string * Cluster)) (node : Node.t)
  : list (string * Cluster) :=
  match mapGet clusters (Node.pipelineStep node) with
  | Some cluster =>
      (* cluster.nodes.push(node) on the object held by the map *)
      mapSet clusters (Node.pipelineStep node) (pushNode node cluster)
  | None => clusters
  end.

Definition computeClusterHulls (nodes : list Node.t)
    (pipelineSteps : list Step.t) : list Cluster :=
  let clusters := initClusters pipelineSteps in
  let clusters := foldl assignNode clusters nodes in
  List.filter (λ c, (0 <? length (cl_nodes c))%nat) (map snd clusters).
End Clusters.

(** ** Semantic zoom *)

Module Zoom.
Local Open Scope Q_scope.

Definition ABSTRACT : Q := 0.45.
Definition MINIMAL : Q := 0.7.
Definition NORMAL : Q := 1.0.
Definition DETAILED : Q := 1.5.
Definition FULL : Q := 2.2.

(** [a < b] on numbers *)
Definition ltb (a b : Q) : bool := negb (Qle_bool b a).
(** [a >= b] on numbers *)
Definition geb (a b : Q) : bool := Qle_bool b a.

Definition getZoomLevelName (scale : Q) : string :=
  if ltb scale ABSTRACT then "Abstract"
  else if ltb scale MINIMAL then "Minimal"
  else if ltb scale DETAILED then "Normal"
  else if ltb scale FULL then "Detailed"
  else "Full Detail".

(** Position of a band, by the name [getZoomLevelName] gives it. *)
Definition bandRank (name : string) : nat :=
  if String.eqb name "Abstract" then 0
  else if String.eqb name "Minimal" then 1
  else if String.eqb name "Normal" then 2
  else if String.eqb name "Detailed" then 3
  else 4.

(** [Math.max(8, Math.min(18, 8 + d.degree * 1.5))] *)
Definition nodeRadius (d : Node.t) : Q :=
  Qmax 8 (Qmin 18 (8 + inject_Z (Z.of_nat (default 0%nat (Node.degree d))) * 1.5)).

Record DetailCard := {
  card_node : Node.t;
  card_name : string;        (* showFull ? d.name : d.shortName *)
  card_badges : bool;        (* modality, step and evidence lines: showFull *)
}.

(** [updateDetailCards]: the cards present after the call, one per node
    of the selection, or none. *)
Definition updateDetailCards (node : list Node.t)
    (showDetailed showFull : bool) : list DetailCard :=
  if negb showDetailed && negb showFull then []
  else map (λ d, {| card_node := d;
                    card_name := if showFull then Node.name d
                                 else Node.shortName d;
                    card_badges := showFull |}) node.

(** What one call of [updateSemanticZoom] sets. *)
Record View := {
  levelName : string;
  circleRadius : Node.t → Q;
  circleStrokeWidth : Q;
  modalityOpacity : Q;
  modalityRadius : Q;
  linkOpacity : Q;
  linkStrokeWidth : Link.t → Q;
  hullFillOpacity : Q;
  hullStrokeOpacity : Q;
  hullStrokeWidth : Q;
  labelFontSize : string;
  labelOpacity : Q;
  detailCards : list DetailCard;
}.

(** [updateSemanticZoom(scale)] once the graph elements exist; [node] is
    the data bound to the node selection.  Before they exist the function
    only refreshes the indicator ([None] below). *)
Definition updateSemanticZoom (node : option (list Node.t)) (scale : Q)
  : option View :=
  let isAbstract := ltb scale ABSTRACT in
  let isMinimal := geb scale ABSTRACT && ltb scale MINIMAL in
  let isNormal := geb scale MINIMAL && ltb scale DETAILED in
  let isDetailed := geb scale DETAILED && ltb scale FULL in
  let isFull := geb scale FULL in
  match node with
  | None => None
  | Some node =>
    Some
    {| levelName := getZoomLevelName scale;
       circleRadius := λ d,
         let baseRadius := nodeRadius d in
         if isAbstract then (baseRadius * 0.6)%Q
         else if isMinimal then (baseRadius * 0.8)%Q
         else baseRadius;
       circleStrokeWidth := if isAbstract then 1 else 2;
       modalityOpacity := if isAbstract || isMinimal then 0 else 0.8;
       modalityRadius := if isNormal then 4 else if isDetailed then 5 else 6;
       linkOpacity := if isAbstract then 0.2 else if isMinimal then 0.4 else 0.6;
       linkStrokeWidth := λ d,
         if isAbstract then 0.5
         else if isMinimal then (strokeWidth (Link.style d) * 0.7)%Q
         else strokeWidth (Link.style d);
       hullFillOpacity :=
         if isAbstract then 0.15 else if isMinimal then 0.12 else 0.08;
       hullStrokeOpacity :=
         if isAbstract then 0.5 else if isMinimal then 0.4 else 0.3;
       hullStrokeWidth := if isAbstract then 3 else 2;
       labelFontSize :=
         if isAbstract then "16px" else if isMinimal then "14px" else "12px";
       labelOpacity :=
         if isAbstract then 0.9 else if isMinimal then 0.8
         else if isFull then 0.4 else 0.7;
       detailCards := updateDetailCards node isDetailed isFull |}
  end.
End Zoom.

(** ** The control handle *)

Module Handle.
Local Open Scope Q_scope.

(** What invoking an operation of the handle does. *)
Inductive Effect :=
| Recreate                   (* createRelationshipGraph(container, data, ...) *)
| StopSimulation             (* simulation.stop() *)
| ClearContainer             (* d3.select(container).selectAll('*').remove() *)
| ZoomTransformInitial       (* zoom.transform, initialTransform *)
| ZoomScaleBy (k : Q)        (* zoom.scaleBy, k *)
| ReheatSimulation.          (* simulation.alpha(1).restart() *)

(** The returned object: property name to function body. *)
Abbreviation t := (gmap string (list Effect)).

Inductive Outcome :=
| Returned (effects : list Effect)
| Threw (error : string).

(** [handle.op()]: calling a property that is not there is a TypeError. *)
Definition invoke (handle : t) (op : string) : Outcome :=
  match handle !! op with
  | Some body => Returned body
  | None => Threw "TypeError"
  end.

(** [createRelationshipGraph], as far as the returned controls go.
    [containerWidth] is [container.getBoundingClientRect().width]. *)
Definition createRelationshipGraph (containerWidth : Q) : t :=
  if Qeq_bool containerWidth 0 then
    {[ "update" := []; "destroy" := [] ]}
  else
    {[ "update" := [Recreate];
       "destroy" := [StopSimulation; ClearContainer];
       "zoomToFit" := [ZoomTransformInitial];
       "zoomIn" := [ZoomScaleBy 1.3];
       "zoomOut" := [ZoomScaleBy 0.7];
       "resetSimulation" := [ReheatSimulation] ]}.

(** The wrapper's guarded calls: [if (vizRef.current) vizRef.current.op()]. *)
Definition guardedCall (vizRef : option t) (op : string) : Outcome :=
  match vizRef with
  | Some handle => invoke handle op
  | None => Returned []
  end.

Definition handleZoomIn vizRef := guardedCall vizRef "zoomIn".
Definition handleZoomOut vizRef := guardedCall vizRef "zoomOut".
Definition handleZoomReset vizRef := guardedCall vizRef "zoomToFit".
Definition handleResetSimulation vizRef := guardedCall vizRef "resetSimulation".

(** One run of the wrapper's [initViz]: with a zero [clientWidth] it only
    schedules itself again after 50 ms; otherwise it stores the handle. *)
Definition initViz (clientWidth : nat) (rectWidth : Q) (vizRef : option t)
  : option t * option nat :=
  if (clientWidth =? 0)%nat then (vizRef, Some 50%nat)
  else (Some (createRelationshipGraph rectWidth), None).
End Handle.

(** ** Auxiliary notions used by the statements *)

(** No entry is repeated in the modality, task and tag lists of a record. *)
Definition distinctEntries (m : Method.t) : Prop :=
  NoDup (Method.modalities m)
  ∧ NoDup (default [] (Method.tasks m))
  ∧ NoDup (default [] (Method.tags m)).

(** *** The sequence of [addLink] invocations

    The builder only ever changes [links] and [addedLinks] through
    [addLink].  The lists below enumerate, stage by stage and in execution
    order, the invocations the loops of [buildGraphData] make; that the
    builder is the fold of [addLink] over them is proved further down
    ([buildLinks_trace]). *)

Record Call := {
  c_source : string;
  c_target : string;
  c_type : RelType;
  c_strength : Q;
}.

Definition addCall (st : LinkState) (c : Call) : LinkState :=
  addLink st (c_source c) (c_target c) (c_type c) (c_strength c).

Definition callLink (c : Call) : Link.t :=
  Link.mk (c_source c) (c_target c) (c_type c) (c_strength c)
          (RELATIONSHIP_TYPES (c_type c)).

(** The pairs [(l[i], l[j])], [i < j], in the order of the nested loops. *)
Fixpoint pairs {A : Type} (l : list A) : list (A * A) :=
  match l with
  | [] => []
  | x :: rest => (map (pair x) rest ++ pairs rest)%list
  end.

Definition explicitCalls (methods : list Method.t)
    (nodeMap : gmap string Node.t) : list Call :=
  method ← methods;
  relatedId ← default [] (Method.related_method_ids method);
  if bool_decide (is_Some (nodeMap !! relatedId))
  then [ {| c_source := Method.id method; c_target := relatedId;
            c_type := explicit; c_strength := 1 |} ]
  else [].

Definition sameStepCalls (methods : list Method.t)
    (pipelineSteps : list Step.t) : list Call :=
  step ← pipelineSteps;
  p ← pairs (List.filter
               (λ m, String.eqb (Method.pipeline_step m) (Step.id step)) methods);
  [ {| c_source := Method.id p.1; c_target := Method.id p.2;
       c_type := sameStep; c_strength := 0.3 |} ].

Definition sharedModalityCalls (methods : list Method.t) : list Call :=
  p ← pairs methods;
  let shared_ := shared (Method.modalities p.1) (Method.modalities p.2) in
  if (0 <? length shared_)%nat
     && negb (String.eqb (Method.pipeline_step p.1) (Method.pipeline_step p.2))
  then [ {| c_source := Method.id p.1; c_target := Method.id p.2;
            c_type := sharedModality;
            c_strength := (0.4 + inject_Z (Z.of_nat (length shared_)) * 0.1)%Q |} ]
  else [].

Definition sharedTaskCalls (methods : list Method.t) : list Call :=
  p ← pairs methods;
  let shared_ := shared (default [] (Method.tasks p.1))
                        (default [] (Method.tasks p.2)) in
  if (0 <? length shared_)%nat
     && negb (String.eqb (Method.pipeline_step p.1) (Method.pipeline_step p.2))
  then [ {| c_source := Method.id p.1; c_target := Method.id p.2;
            c_type := sharedTask;
            c_strength := (0.3 + inject_Z (Z.of_nat (length shared_)) * 0.15)%Q |} ]
  else [].

Definition simCall (s : Similarity) : Call :=
  {| c_source := sim_source s; c_target := sim_target s;
     c_type := similar; c_strength := similarity s |}.

(** The capped loop, keeping only what it hands to [addLink]. *)
Definition acceptStep (maxSimilarLinks : nat)
    (acc : list Call * gmap string nat) (s : Similarity)
  : list Call * gmap string nat :=
  let '(accepted, nodeLinkCounts) := acc in
  let sourceCount := default 0%nat (nodeLinkCounts !! sim_source s) in
  let targetCount := default 0%nat (nodeLinkCounts !! sim_target s) in
  if (sourceCount <? maxSimilarLinks)%nat && (targetCount <? maxSimilarLinks)%nat
  then ((accepted ++ [simCall s])%list,
        <[sim_target s := (targetCount + 1)%nat]>
          (<[sim_source s := (sourceCount + 1)%nat]> nodeLinkCounts))
  else acc.

Definition similarCalls (methods : list Method.t)
    (pipelineSteps : list Step.t) (similarityThreshold : Q)
    (maxSimilarLinks : nat) : list Call :=
  fst (foldl (acceptStep maxSimilarLinks) ([], ∅)
         (sortBySimilarity
            (collectSimilarities methods pipelineSteps similarityThreshold))).

Definition calls (data : Catalog) (options : Options)
    (nodeMap : gmap string Node.t) : list Call :=
  ((if showExplicitRelations options
    then explicitCalls (methods data) nodeMap else []) ++
   (if showSameStepLinks options
    then sameStepCalls (methods data) (pipelineSteps data) else []) ++
   (if showSharedModalityLinks options
    then sharedModalityCalls (methods data) else []) ++
   (if showSharedTaskLinks options
    then sharedTaskCalls (methods data) else []) ++
   (if showSimilarMethods options
    then similarCalls (methods data) (pipelineSteps data)
           (similarityThreshold options) (maxSimilarLinks options)
    else []))%list.

(** Position of a relationship type in the order of the stages. *)
Definition stageRank (type : RelType) : nat :=
  match type with
  | explicit => 0
  | sameStep => 1
  | sharedModality => 2
  | sharedTask => 3
  | similar => 4
  end.

(** Two endpoint pairs are the same unordered pair. *)
Definition samePair (s1 t1 s2 t2 : string) : Prop :=
  (s1 = s2 ∧ t1 = t2) ∨ (s1 = t2 ∧ t1 = s2).

Definition linkKeyOf (l : Link.t) : string :=
  linkKey (Link.source l) (Link.target l).

(** The test of [addLink]. *)
Definition accepts (st : LinkState) (c : Call) : bool :=
  bool_decide (linkKey (c_source c) (c_target c) ∉ addedLinks st)
  && negb (String.eqb (c_source c) (c_target c)).

(** Keys of the links are recorded, and no key is used twice. *)
Definition keysRecorded (st : LinkState) : Prop :=
  (∀ l, l ∈ st_links st → linkKeyOf l ∈ addedLinks st)
  ∧ NoDup (linkKeyOf <$> st_links st).

(** The invocations of one build: the node map is the one the builder
    makes from its own nodes. *)
Definition claims (STEP_COLORS : string → option string)
    (data : Catalog) (options : Options) : list Call :=
  calls data options (buildNodeMap (map (createNode STEP_COLORS) (methods data))).

Definition knownIds (data : Catalog) : list string :=
  Method.id <$> methods data.

(** Stage order on invocations. *)
Definition rankLe (c1 c2 : Call) : Prop :=
  (stageRank (c_type c1) ≤ stageRank (c_type c2))%nat.

(** Number of edges of type [similar] with [n] as an endpoint. *)
Definition similarDegree (n : string) (links : list Link.t) : nat :=
  length (filter (λ e, Link.type e = similar
                       ∧ (Link.source e = n ∨ Link.target e = n)) links).

(** Number of invocations with [n] as an endpoint. *)
Definition incidentCalls (n : string) (cs : list Call) : nat :=
  length (filter (λ c, c_source c = n ∨ c_target c = n) cs).

(** The invariant of the capped loop: a node's counter covers the
    invocations made on it and stays within the cap. *)
Definition capInvariant (maxSimilarLinks : nat)
    (acc : list Call * gmap string nat) : Prop :=
  ∀ n, (incidentCalls n acc.1 ≤ default 0%nat (acc.2 !! n))%nat
       ∧ (default 0%nat (acc.2 !! n) ≤ maxSimilarLinks)%nat.

(** Number of edges that reference [n] as an endpoint, and the two
    endpoint roles counted apart. *)
Definition edgesAt (n : string) (links : list Link.t) : nat :=
  length (filter (λ e, Link.source e = n ∨ Link.target e = n) links).

Definition asSource (n : string) (links : list Link.t) : nat :=
  length (filter (λ e, Link.source e = n) links).

Definition asTarget (n : string) (links : list Link.t) : nat :=
  length (filter (λ e, Link.target e = n) links).

(** The catalog with every related-id that names no method removed. *)
Definition pruneRelated (known : list string) (m : Method.t) : Method.t :=
  Method.mk (Method.id m) (Method.name m) (Method.pipeline_step m)
            (Method.modalities m) (Method.tasks m) (Method.tags m)
            (Method.maturity m) (Method.evidence_type m)
            (filter (.∈ known) <$> Method.related_method_ids m)
            (Method.year m).

Definition pruneStale (data : Catalog) : Catalog :=
  {| methods := pruneRelated (knownIds data) <$> methods data;
     pipelineSteps := pipelineSteps data |}.

(** The state of the [clusters] map once the nodes [seen] were visited:
    keys are distinct, every entry is filed under its own id and holds, in
    order, the visited nodes of that pipeline step. *)
Definition clustersInvariant (m : list (string * Cluster))
    (seen : list Node.t) : Prop :=
  NoDup (fst <$> m)
  ∧ ∀ k c, (k, c) ∈ m →
      cl_id c = k
      ∧ cl_nodes c = filter (λ n, Node.pipelineStep n = k) seen.

(** ** Sample catalogs

    Small inputs on which the definitions above are evaluated further down. *)

Module Sample.
Definition noColors : string → option string := λ _, None.

(** [a] lists [b], an id that names no method, and itself. *)
Definition mA : Method.t :=
  Method.mk "a" "Alpha" "s1" ["text"; "image"] (Some ["t1"]) (Some ["g1"; "g2"])
            "emerging" "algorithm" (Some ["b"; "zz"; "a"]) (Some 2020%Z).
Definition mB : Method.t :=
  Method.mk "b" "Beta" "s2" ["text"] (Some ["t1"; "t2"]) None
            "emerging" "case-study" None None.
Definition mC : Method.t :=
  Method.mk "c" "Gamma" "s2" ["text"] (Some ["t1"; "t2"]) None
            "emerging" "case-study" (Some ["a"]) None.
(** A record that lists one modality twice. *)
Definition mDup : Method.t :=
  Method.mk "d" "Delta" "s1" ["text"; "text"] None None
            "mature" "survey" None None.

Definition steps2 : list Step.t :=
  [Step.mk "s1" "One" 1; Step.mk "s2" "Two" 2].
(** The id [s1] occurs twice. *)
Definition steps3 : list Step.t :=
  [Step.mk "s1" "One" 1; Step.mk "s2" "Two" 2; Step.mk "s1" "One again" 3].

Definition cat : Catalog :=
  {| methods := [mA; mB; mC]; pipelineSteps := steps2 |}.

Definition allOn : Options :=
  {| showExplicitRelations := true;
     showSimilarMethods := true;
     similarityThreshold := 0.35;
     showSameStepLinks := true;
     showSharedModalityLinks := true;
     showSharedTaskLinks := true;
     maxSimilarLinks := 3 |}.

(** The best pair of [cat] scores 0.9. *)
Definition strict : Options :=
  {| showExplicitRelations := true;
     showSimilarMethods := true;
     similarityThreshold := 0.95;
     showSameStepLinks := false;
     showSharedModalityLinks := false;
     showSharedTaskLinks := false;
     maxSimilarLinks := 4 |}.

(** A cap of one similar link per node. *)
Definition capOne : Options :=
  {| showExplicitRelations := true;
     showSimilarMethods := true;
     similarityThreshold := 0.35;
     showSameStepLinks := false;
     showSharedModalityLinks := false;
     showSharedTaskLinks := false;
     maxSimilarLinks := 1 |}.

(** Two methods, the first naming the second. *)
Definition pairCat : Catalog :=
  {| methods :=
       [Method.mk "p" "P" "s1" [] None None "m1" "e1" (Some ["q"]) None;
        Method.mk "q" "Q" "s2" [] None None "m2" "e2" None None];
     pipelineSteps := steps2 |}.

(** Five methods of one pipeline step. *)
Definition fiveCat : Catalog :=
  {| methods :=
       (λ i, Method.mk i i "s1" [] None None "m" "e" None None)
         <$> ["m1"; "m2"; "m3"; "m4"; "m5"];
     pipelineSteps := steps2 |}.

Definition only (explicitOn sameStepOn : bool) : Options :=
  {| showExplicitRelations := explicitOn;
     showSimilarMethods := false;
     similarityThreshold := 0.35;
     showSameStepLinks := sameStepOn;
     showSharedModalityLinks := false;
     showSharedTaskLinks := false;
     maxSimilarLinks := 3 |}.

Definition sims3 : list Similarity :=
  [ {| sim_source := "a"; sim_target := "b"; similarity := 0.5 |};
    {| sim_source := "c"; sim_target := "d"; similarity := 0.9 |};
    {| sim_source := "e"; sim_target := "f"; similarity := 0.5 |} ].

Definition summary (g : Graph) : list (string * string * RelType) :=
  map (λ l, (Link.source l, Link.target l, Link.type l)) (links g).

Definition eAB : Link.t :=
  Link.mk "a" "b" explicit 1 (RELATIONSHIP_TYPES explicit).
Definition eBC : Link.t :=
  Link.mk "b" "c" sameStep 0.3 (RELATIONSHIP_TYPES sameStep).
Definition cBC : Call :=
  {| c_source := "b"; c_target := "c"; c_type := similar;
     c_strength := calculateSimilarity mB mC steps2 |}.

Definition node (id step : string) : Node.t :=
  Node.mk id id id step [] [] [] "m" "e" [] None TOKENS_accent (Some 0%nat).
(** A node whose pipeline step is not among the steps. *)
Definition orphan : Node.t := node "o" "elsewhere".

Definition n1 : Node.t :=
  Node.mk "a" "Alpha" "Alpha" "s1" ["text"] [] [] "emerging" "algorithm" []
          (Some 2020%Z) TOKENS_accent (Some 2%nat).
End Sample.

(** ** Text wrapping of the detail cards *)

Module Wrap.
(** The ASCII characters a [\s] of a regular expression matches. *)
Definition isWhitespace (c : ascii) : bool :=
  match nat_of_ascii c with
  | 9 | 10 | 11 | 12 | 13 | 32 => true
  | _ => false
  end.

(** [text.split(/\s+/)]: the pieces between the maximal runs of
    whitespace; a run at the start or at the end leaves an empty piece
    there, and the empty text gives one empty piece.  [inGap] says that the
    previous character was whitespace, [current] is the piece read so far. *)
Fixpoint splitFrom (inGap : bool) (current : string) (text : string)
  : list string :=
  match text with
  | EmptyString => [current]
  | String c rest =>
      if isWhitespace c
      then if inGap then splitFrom true current rest
           else current :: splitFrom true "" rest
      else splitFrom false (current ++ String c "")%string rest
  end.

Definition split (text : string) : list string := splitFrom false "" text.

Definition charWidth : Q := 6.5.

(** A string in a condition: the empty string is falsy. *)
Definition truthy (s : string) : bool := negb (String.eqb s "").

(** The body of [words.forEach] in [wrapText]; the state is [lines] and
    [currentLine]. *)
Definition wrapStep (maxWidth : Q) (st : list string * string) (word : string)
  : list string * string :=
  let '(lines, currentLine) := st in
  let testLine :=
    if truthy currentLine then (currentLine ++ " " ++ word)%string else word in
  if Zoom.ltb maxWidth
       (inject_Z (Z.of_nat (String.length testLine)) * charWidth)%Q
     && truthy currentLine
  then (lines ++ [currentLine], word)
  else (lines, testLine).

(** The lines of [wrapText] before [lines.slice(0, 3)]. *)
Definition wrapLines (words : list string) (maxWidth : Q) : list string :=
  let '(lines, currentLine) := foldl (wrapStep maxWidth) ([], "") words in
  if truthy currentLine then lines ++ [currentLine] else lines.

Definition wrapText (text : string) (maxWidth : Q) : list string :=
  take 3 (wrapLines (split text) maxWidth).

(** A line is no wider than [maxWidth] at [charWidth] per character. *)
Definition fits (maxWidth : Q) (line : string) : Prop :=
  (inject_Z (Z.of_nat (String.length line)) * charWidth <= maxWidth)%Q.

(** The name lines of a detail card:
    [wrapText(nameText, showFull ? 200 : 150)]. *)
Definition nameLines (card : Zoom.DetailCard) : list string :=
  wrapText (Zoom.card_name card) (if Zoom.card_badges card then 200 else 150)%Q.
End Wrap.

(** What [wrapText]'s loop keeps of the words read so far, joined by
    single spaces. *)
Definition wrapJoined (processed : list string) (st : list string * string)
  : Prop :=
  (st.2 = "" ∧ st.1 = [] ∧ processed = [])
  ∨ (st.2 ≠ "" ∧ processed ≠ []
     ∧ String.concat " " (st.1 ++ [st.2]) = String.concat " " processed).

(** No character of the string is whitespace. *)
Fixpoint noWhitespace (s : string) : bool :=
  match s with
  | EmptyString => true
  | String c rest => negb (Wrap.isWhitespace c) && noWhitespace rest
  end.

(** ** The zoom listener *)

Module ZoomListener.
Local Open Scope Q_scope.

(** [currentZoomScale], and what the last [updateSemanticZoom] that found
    the graph elements has set ([None]: the attributes as first drawn). *)
Record State := {
  currentZoomScale : Q;
  view : option Zoom.View;
}.

Definition initialScale : Q := 0.85.

Definition initial : State :=
  {| currentZoomScale := initialScale; view := None |}.

(** The ['zoom'] handler for an event with [event.transform.k = k]:
    [updateSemanticZoom] runs only when the scale moved by more than 0.05;
    it stores the scale first and then sets the attributes, unless the
    elements are missing. *)
Definition onZoom (node : option (list Node.t)) (st : State) (k : Q) : State :=
  if Zoom.ltb 0.05 (Qabs (k - currentZoomScale st))
  then {| currentZoomScale := k;
          view := match Zoom.updateSemanticZoom node k with
                  | Some v => Some v
                  | None => view st
                  end |}
  else st.

(** The scale of the last event, [initialScale] when there was none. *)
Definition liveScale (events : list Q) : Q := List.last events initialScale.

(** The stored scale is within 0.05 of [k], and the view is the one of the
    stored scale (or none was set yet). *)
Definition listenerInvariant (node : list Node.t) (k : Q) (st : State) : Prop :=
  Qabs (k - currentZoomScale st) <= 0.05
  ∧ (view st = None
     ∨ view st = Zoom.updateSemanticZoom (Some node) (currentZoomScale st)).
End ZoomListener.

(** ** Identifiers and link keys *)

Definition isDash (c : ascii) : bool := Ascii.eqb c "-"%char.

Definition startsWithDash (s : string) : bool :=
  match s with
  | String c _ => isDash c
  | EmptyString => false
  end.

(** No two consecutive characters of the string are dashes. *)
Fixpoint noDoubleDash (s : string) : bool :=
  match s with
  | EmptyString => true
  | String c rest => negb (isDash c && startsWithDash rest) && noDoubleDash rest
  end.

(** An identifier that cannot be confused with the ['--'] of a link key. *)
Definition plainId (s : string) : bool :=
  noDoubleDash s && negb (startsWithDash s).

(** Every recorded key is the key of a link. *)
Definition keysBacked (st : LinkState) : Prop :=
  ∀ k, k ∈ addedLinks st → ∃ l, l ∈ st_links st ∧ linkKeyOf l = k.

Module Collision.
(** Four methods of one step whose ids make two different pairs share a
    link key: [a] with [b--c], and [a--b] with [c]. *)
Definition cat : Catalog :=
  {| methods :=
       (λ i, Method.mk i i "s1" [] None None "m" "e" None None)
         <$> ["a"; "b--c"; "a--b"; "c"];
     pipelineSteps := [Step.mk "s1" "One" 1] |}.
End Collision.

(** Whether the stage that makes edges of a type is switched on. *)
Definition stageEnabled (options : Options) (type : RelType) : bool :=
  match type with
  | explicit => showExplicitRelations options
  | sameStep => showSameStepLinks options
  | sharedModality => showSharedModalityLinks options
  | sharedTask => showSharedTaskLinks options
  | similar => showSimilarMethods options
  end.

(** ** The React wrapper's use of the builder *)

Module Wrapper.
(** The options [buildGraphData] ends up with when the wrapper calls
    [createRelationshipGraph] with
    [linkOptions: { showSimilarMethods: showSimilar, similarityThreshold }]:
    [createRelationshipGraph] puts [showExplicitRelations: true] and
    [maxSimilarLinks: 4] in front of them, and [buildGraphData] defaults
    the three remaining switches to [false]. *)
Definition graphOptions (showSimilar : bool) (threshold : Q) : Options :=
  {| showExplicitRelations := true;
     showSimilarMethods := showSimilar;
     similarityThreshold := threshold;
     showSameStepLinks := false;
     showSharedModalityLinks := false;
     showSharedTaskLinks := false;
     maxSimilarLinks := 4 |}.

(** [filteredMethods.length > 0 ? filteredMethods : data.methods] with
    [data.pipeline_steps || []]. *)
Definition vizData (pipeline_steps : option (list Step.t))
    (allMethods filteredMethods : list Method.t) : Catalog :=
  {| pipelineSteps := default [] pipeline_steps;
     methods := if (0 <? length filteredMethods)%nat
                then filteredMethods else allMethods |}.
End Wrapper.

(** ** Highlighting around a node *)

Module Highlight.
Local Open Scope Q_scope.

(** [l.source.id === d.id || l.target.id === d.id]; once the simulation
    has resolved the links, [l.source] and [l.target] are the nodes with
    the ids the link was built with. *)
Definition incident (d : Node.t) (l : Link.t) : bool :=
  String.eqb (Link.source l) (Node.id d) || String.eqb (Link.target l) (Node.id d).

(** The link attributes set on [mouseenter] of node [d]. *)
Definition linkOpacity (d : Node.t) (l : Link.t) : Q :=
  if incident d l then 1 else 0.15.

Definition linkStrokeWidth (d : Node.t) (l : Link.t) : Q :=
  if incident d l then strokeWidth (Link.style l) * 1.5
  else strokeWidth (Link.style l).

(** [links.some(...)]: some link joins the node with id [focus] and [n]. *)
Definition isConnected (links : list Link.t) (focus : string) (n : Node.t)
  : bool :=
  existsb (λ l,
             (String.eqb (Link.source l) focus
              && String.eqb (Link.target l) (Node.id n))
             || (String.eqb (Link.target l) focus
                 && String.eqb (Link.source l) (Node.id n)))
          links.

(** The node opacity set on [mouseenter] of the node with id [focus], and
    for [selectedMethodId = focus]: the two places use the same rule. *)
Definition nodeOpacity (links : list Link.t) (focus : string) (n : Node.t) : Q :=
  if String.eqb (Node.id n) focus then 1
  else if isConnected links focus n then 1 else 0.3.
End Highlight.

(** The region of a step over a list of nodes, as the two loops of
    [computeClusterHulls] leave it when the step ids are distinct. *)
Definition regionOf (STEP_COLORS : string → option string)
    (nodes : list Node.t) (step : Step.t) : Cluster :=
  {| cl_id := Step.id step; cl_name := Step.name step;
     cl_color := STEP_COLORS (Step.id step);
     cl_nodes := filter (λ n, Node.pipelineStep n = Step.id step) nodes |}.

(** [cluster] with [more] pushed onto its nodes. *)
Definition addNodes (more : list Node.t) (cluster : Cluster) : Cluster :=
  {| cl_id := cl_id cluster; cl_name := cl_name cluster;
     cl_color := cl_color cluster;
     cl_nodes := cl_nodes cluster ++ more |}.

(** ** Theme: light and dark mode kept in local storage *)

Module Theme.
Definition THEME_STORAGE_KEY : string := "pm-taxonomy-theme".
Definition DARK : string := "dark".
Definition LIGHT : string := "light".

(** [localStorage]: [getItem] of an absent key gives [null]. *)
Abbreviation Storage := (gmap string string).

Definition getInitialTheme (hasWindow : bool) (localStorage : Storage)
  : string :=
  if negb hasWindow then DARK else
  match localStorage !! THEME_STORAGE_KEY with
  | Some stored =>
      if String.eqb stored LIGHT || String.eqb stored DARK then stored
      else DARK
  | None => DARK
  end.

(** [applyTheme]: the value of the root's [data-theme] attribute after
    the call, [None] when the attribute is removed. *)
Definition applyTheme (theme : string) : option string :=
  if String.eqb theme LIGHT then Some "light" else None.

(** The provider's state and the storage it writes to. *)
Record State := {
  theme : string;
  localStorage : Storage;
}.

Definition setTheme (newTheme : string) (st : State) : State :=
  {| theme := newTheme;
     localStorage := <[THEME_STORAGE_KEY := newTheme]> (localStorage st) |}.

Definition toggleTheme (st : State) : State :=
  setTheme (if String.eqb (theme st) DARK then LIGHT else DARK) st.

(** A page load: the provider starts from what the storage holds. *)
Definition load (localStorage : Storage) : State :=
  {| theme := getInitialTheme true localStorage;
     localStorage := localStorage |}.

Definition valid (theme : string) : Prop := theme = DARK ∨ theme = LIGHT.
End Theme.

(** [a] is at least as similar as [b]. *)
Definition atLeastAsSimilar (a b : Similarity) : Prop :=
  (similarity b <= similarity a)%Q.

(** The key of the pair of ids of two methods. *)
Definition pairKey (p : Method.t * Method.t) : string :=
  linkKey (Method.id p.1) (Method.id p.2).

Definition sameStepCall (p : Method.t * Method.t) : Call :=
  {| c_source := Method.id p.1; c_target := Method.id p.2;
     c_type := sameStep; c_strength := 0.3 |}.

(** * Properties *)

(** ** Similarity scorer *)

Section SimilarityFacts.
Local Open Scope Q_scope.

Lemma shared_length_sym (xs ys : list string) :
  NoDup xs → NoDup ys → length (shared xs ys) = length (shared ys xs).
Proof.
  intros Hx Hy. apply Permutation_length.
  apply NoDup_Permutation; unfold shared.
  - by apply NoDup_filter.
  - by apply NoDup_filter.
  - intros x. rewrite !list_elem_of_filter. tauto.
Qed.

Lemma count_weight_nonneg (n : nat) (w : Q) :
  0 <= w → 0 <= inject_Z (Z.of_nat n) * w.
Proof.
  intros Hw. apply Qmult_le_0_compat; [|done].
  change 0 with (inject_Z 0). rewrite <- Zle_Qle. lia.
Qed.

Lemma Z_abs_sub_sym (x y : Z) : Z.abs (x - y) = Z.abs (y - x).
Proof. lia. Qed.
End SimilarityFacts.

Module SimilarityExamples.
Import Sample.

Example score_ab : (calculateSimilarity mA mB steps2 == 0.55)%Q.
Proof. vm_compute. reflexivity. Qed.

Example score_aa : calculateSimilarity mA mA steps2 = 0%Q.
Proof. reflexivity. Qed.

Example score_dup_b : (calculateSimilarity mDup mB steps2 == 0.55)%Q.
Proof. vm_compute. reflexivity. Qed.

Example score_b_dup : (calculateSimilarity mB mDup steps2 == 0.3)%Q.
Proof. vm_compute. reflexivity. Qed.
End SimilarityExamples.

(** C2, as stated, fails: the scorer counts the entries of the first
    record's list that occur in the second record's list, so a repeated
    entry on one side is counted twice in one direction and once in the
    other.  Here [score(mDup, mB) = 0.55] and [score(mB, mDup) = 0.3]. *)
Lemma calculateSimilarity_not_symmetric :
  ¬ (calculateSimilarity Sample.mDup Sample.mB
       Sample.steps2
     == calculateSimilarity Sample.mB Sample.mDup
          Sample.steps2)%Q.
Proof. vm_compute. discriminate. Qed.

(** C2 (amended): for all records [a], [b] and step lists, the score is
    symmetric whenever neither record repeats an entry in its modality,
    task or tag list; it is [0] whenever the two ids are equal (so
    [score(a,a) = 0]); and it always lies between [0] and [1]. *)
Theorem calculateSimilarity_sym_zero_bounded
    (a b : Method.t) (steps : list Step.t) :
  (distinctEntries a → distinctEntries b →
     calculateSimilarity a b steps = calculateSimilarity b a steps)
  ∧ (Method.id a = Method.id b → calculateSimilarity a b steps = 0%Q)
  ∧ (calculateSimilarity a a steps = 0%Q)
  ∧ (0 <= calculateSimilarity a b steps <= 1)%Q.
Proof.
  split; [|split; [|split]].
  - intros (Ha1 & Ha2 & Ha3) (Hb1 & Hb2 & Hb3).
    unfold calculateSimilarity.
    rewrite (String.eqb_sym (Method.id b)).
    rewrite (shared_length_sym _ _ Hb1 Ha1),
            (shared_length_sym _ _ Hb2 Ha2),
            (shared_length_sym _ _ Hb3 Ha3).
    rewrite (String.eqb_sym (Method.maturity b)),
            (String.eqb_sym (Method.evidence_type b)).
    destruct (findStep steps (Method.pipeline_step a)) as [sa|],
             (findStep steps (Method.pipeline_step b)) as [sb|];
      try reflexivity.
    by rewrite (Z_abs_sub_sym (Step.order sb)).
  - intros Hid. unfold calculateSimilarity.
    by rewrite Hid, String.eqb_refl.
  - unfold calculateSimilarity. by rewrite String.eqb_refl.
  - unfold calculateSimilarity.
    destruct (Method.id a =? Method.id b)%string; [split; discriminate|].
    set (m := inject_Z (Z.of_nat (length (shared (Method.modalities a) (Method.modalities b))))).
    set (k := inject_Z (Z.of_nat (length (shared (default [] (Method.tasks a)) (default [] (Method.tasks b)))))).
    set (g := inject_Z (Z.of_nat (length (shared (default [] (Method.tags a)) (default [] (Method.tags b)))))).
    assert (Hm : (0 <= m * 0.25)%Q) by (by apply count_weight_nonneg).
    assert (Hk : (0 <= k * 0.2)%Q) by (by apply count_weight_nonneg).
    assert (Hg : (0 <= g * 0.1)%Q) by (by apply count_weight_nonneg).
    split; [|apply Q.le_min_r].
    apply Q.min_glb; [|discriminate].
    repeat match goal with
           | |- context [if ?c then _ else _] => destruct c
           | |- context [match ?o with Some _ => _ | None => _ end] => destruct o
           end; lra.
Qed.

(** ** Graph builder: the loops as one fold over their invocations *)

Section Loops.
Context {S A B : Type}.

Lemma foldl_bind (f : S → B → S) (g : A → list B) (l : list A) (st : S) :
  foldl f st (l ≫= g) = foldl (λ st x, foldl f st (g x)) st l.
Proof.
  revert st. induction l as [|x l IH]; intros st; [done|].
  cbn. by rewrite foldl_app, IH.
Qed.

Lemma foldl_by_calls (f : S → B → S) (body : S → A → S) (g : A → list B)
    (l : list A) (st : S) :
  (∀ st x, body st x = foldl f st (g x)) →
  foldl body st l = foldl f st (l ≫= g).
Proof.
  intros Hbody. rewrite foldl_bind. revert st.
  induction l as [|x l IH]; intros st; [done|].
  cbn. by rewrite Hbody, IH.
Qed.
End Loops.

Lemma forPairs_pairs {S A : Type} (body : S → A → A → S) (l : list A) (st : S) :
  forPairs body st l = foldl (λ st p, body st p.1 p.2) st (pairs l).
Proof.
  revert st. induction l as [|x l IH]; intros st; [done|].
  cbn. rewrite foldl_app, IH. f_equal.
  clear IH. revert st. induction l as [|y l IH]; intros st; [done|].
  cbn. by rewrite IH.
Qed.

Lemma forPairs_by_calls {S A B : Type} (f : S → B → S)
    (body : S → A → A → S) (g : A * A → list B) (l : list A) (st : S) :
  (∀ st x y, body st x y = foldl f st (g (x, y))) →
  forPairs body st l = foldl f st (pairs l ≫= g).
Proof.
  intros Hbody. rewrite forPairs_pairs.
  apply foldl_by_calls. intros st' [x y]. apply Hbody.
Qed.

Lemma explicitStage_trace methods nodeMap st :
  explicitStage methods nodeMap st
  = foldl addCall st (explicitCalls methods nodeMap).
Proof.
  unfold explicitStage, explicitCalls.
  apply foldl_by_calls. intros st' method.
  apply foldl_by_calls. intros st'' relatedId.
  by destruct (bool_decide _).
Qed.

Lemma sameStepStage_trace methods pipelineSteps st :
  sameStepStage methods pipelineSteps st
  = foldl addCall st (sameStepCalls methods pipelineSteps).
Proof.
  unfold sameStepStage, sameStepCalls.
  apply foldl_by_calls. intros st' step.
  by apply forPairs_by_calls.
Qed.

Lemma sharedModalityStage_trace methods st :
  sharedModalityStage methods st
  = foldl addCall st (sharedModalityCalls methods).
Proof.
  unfold sharedModalityStage, sharedModalityCalls.
  apply forPairs_by_calls. intros st' x y. cbn.
  by destruct (_ && _).
Qed.

Lemma sharedTaskStage_trace methods st :
  sharedTaskStage methods st = foldl addCall st (sharedTaskCalls methods).
Proof.
  unfold sharedTaskStage, sharedTaskCalls.
  apply forPairs_by_calls. intros st' x y. cbn.
  by destruct (_ && _).
Qed.

Lemma similarLoop_trace maxSimilarLinks sims st0 accepted counts :
  foldl (similarStep maxSimilarLinks) (foldl addCall st0 accepted, counts) sims
  = (foldl addCall st0
       (foldl (acceptStep maxSimilarLinks) (accepted, counts) sims).1,
     (foldl (acceptStep maxSimilarLinks) (accepted, counts) sims).2).
Proof.
  revert accepted counts.
  induction sims as [|s sims IH]; intros accepted counts; [done|].
  cbn [foldl]. unfold similarStep at 2, acceptStep at 2 4.
  destruct (_ && _).
  - rewrite <- IH. by rewrite foldl_app.
  - apply IH.
Qed.

Lemma similarStage_trace methods pipelineSteps threshold maxSimilarLinks st :
  similarStage methods pipelineSteps threshold maxSimilarLinks st
  = foldl addCall st
      (similarCalls methods pipelineSteps threshold maxSimilarLinks).
Proof.
  unfold similarStage, similarCalls.
  by rewrite (similarLoop_trace _ _ st []).
Qed.

Lemma buildLinks_trace data options nodeMap :
  buildLinks data options nodeMap
  = foldl addCall emptyLinks (calls data options nodeMap).
Proof.
  unfold buildLinks, calls, when. rewrite !foldl_app.
  destruct (showExplicitRelations options), (showSameStepLinks options),
    (showSharedModalityLinks options), (showSharedTaskLinks options),
    (showSimilarMethods options); cbn [foldl];
    by rewrite ?similarStage_trace, ?sharedTaskStage_trace,
         ?sharedModalityStage_trace, ?sameStepStage_trace,
         ?explicitStage_trace.
Qed.

(** ** Graph builder: what a fold of [addLink] guarantees *)

Lemma linkKey_comm s t : linkKey s t = linkKey t s.
Proof.
  unfold linkKey, String.ltb.
  rewrite (String.compare_antisym s t).
  destruct (String.compare t s) eqn:Hcmp; cbn; try done.
  apply String.compare_eq_iff in Hcmp. by subst.
Qed.

Lemma linkKey_samePair s1 t1 s2 t2 :
  samePair s1 t1 s2 t2 → linkKey s1 t1 = linkKey s2 t2.
Proof. intros [[-> ->]|[-> ->]]; [done|apply linkKey_comm]. Qed.

Lemma addCall_unfold st c :
  addCall st c
  = if accepts st c
    then {| st_links := st_links st ++ [callLink c];
            addedLinks := {[linkKey (c_source c) (c_target c)]} ∪ addedLinks st |}
    else st.
Proof. done. Qed.

Lemma accepts_true st c :
  accepts st c = true ↔
  (linkKey (c_source c) (c_target c) ∉ addedLinks st) ∧ c_source c ≠ c_target c.
Proof.
  unfold accepts. rewrite andb_true_iff, bool_decide_eq_true, negb_true_iff.
  by rewrite String.eqb_neq.
Qed.

Lemma addCall_addedLinks_mono st c k :
  k ∈ addedLinks st → k ∈ addedLinks (addCall st c).
Proof.
  rewrite addCall_unfold. destruct (accepts st c); cbn; set_solver.
Qed.

(** Every link produced by a run is, apart from those present at the
    start, the link of the first invocation on its unordered pair. *)
Lemma run_first_claim cs st l :
  l ∈ st_links (foldl addCall st cs) →
  l ∈ st_links st ∨
  ∃ pre c post,
    cs = pre ++ c :: post ∧ l = callLink c ∧ c_source c ≠ c_target c
    ∧ (linkKey (c_source c) (c_target c) ∉ addedLinks st)
    ∧ ∀ c', c' ∈ pre →
        ¬ samePair (c_source c') (c_target c') (c_source c) (c_target c).
Proof.
  revert st. induction cs as [|c0 cs IH]; intros st Hl; [by left|].
  cbn [foldl] in Hl. apply IH in Hl as [Hl|(pre & c & post & -> & -> & Hne & Hkey & Hpre)].
  - rewrite addCall_unfold in Hl.
    destruct (accepts st c0) eqn:Hacc; [|by left].
    cbn in Hl. apply elem_of_app in Hl as [Hl|Hl]; [by left|].
    apply list_elem_of_singleton in Hl as ->.
    apply accepts_true in Hacc as [Hk Hne].
    right. exists [], c0, cs. repeat split; try done.
    intros c' Hc'. by apply elem_of_nil in Hc'.
  - right. exists (c0 :: pre), c, post. repeat split; try done.
    + intros Hk. apply Hkey. by apply addCall_addedLinks_mono.
    + intros c' Hc' Hsame. apply elem_of_cons in Hc' as [->|Hc']; [|by eapply Hpre].
      apply Hkey. rewrite <- (linkKey_samePair _ _ _ _ Hsame).
      rewrite addCall_unfold.
      destruct (accepts st c0) eqn:Hacc; cbn; [set_solver|].
      destruct (decide (linkKey (c_source c0) (c_target c0) ∈ addedLinks st))
        as [Hin|Hnin]; [done|].
      assert (c_source c0 ≠ c_target c0) as Hne0.
      { destruct Hsame as [[? ?]|[? ?]]; congruence. }
      assert (accepts st c0 = true) by (by apply accepts_true).
      congruence.
Qed.

(** The links of a run extend the initial links by a subsequence of the
    invocations. *)
Lemma run_sublist cs st :
  ∃ added, st_links (foldl addCall st cs) = st_links st ++ added
           ∧ added `sublist_of` (callLink <$> cs).
Proof.
  revert st. induction cs as [|c cs IH]; intros st.
  - exists []. cbn. by rewrite app_nil_r.
  - cbn [foldl]. destruct (IH (addCall st c)) as (added & -> & Hsub).
    rewrite addCall_unfold. destruct (accepts st c); cbn.
    + exists (callLink c :: added). rewrite <- app_assoc. split; [done|].
      by apply sublist_skip.
    + exists added. split; [done|]. by apply sublist_cons.
Qed.

Lemma keysRecorded_addCall st c : keysRecorded st → keysRecorded (addCall st c).
Proof.
  intros [Hrec Hnd]. rewrite addCall_unfold.
  destruct (accepts st c) eqn:Hacc; [|done].
  apply accepts_true in Hacc as [Hk _]. split; cbn.
  - intros l [Hl|Hl]%elem_of_app.
    + apply Hrec in Hl. set_solver.
    + apply list_elem_of_singleton in Hl as ->. set_solver.
  - rewrite fmap_app. apply NoDup_app. split; [done|]. split.
    + intros k Hk1 Hk2. cbn in Hk2. apply list_elem_of_singleton in Hk2 as ->.
      apply list_elem_of_fmap in Hk1 as (l & Hkl & Hl).
      apply Hk. unfold linkKeyOf in Hkl. cbn in Hkl. rewrite Hkl. by apply Hrec.
    + cbn. apply NoDup_singleton.
Qed.

Lemma keysRecorded_run cs st :
  keysRecorded st → keysRecorded (foldl addCall st cs).
Proof.
  revert st. induction cs as [|c cs IH]; intros st Hst; [done|].
  cbn [foldl]. by apply IH, keysRecorded_addCall.
Qed.

Lemma keysRecorded_empty : keysRecorded emptyLinks.
Proof. split; [by intros l Hl%elem_of_nil|constructor]. Qed.

(** ** Graph builder: which invocations the stages make *)

Lemma elem_of_pairs {A : Type} (l : list A) (x y : A) :
  (x, y) ∈ pairs l →
  ∃ i j, (i < j)%nat ∧ l !! i = Some x ∧ l !! j = Some y.
Proof.
  induction l as [|a l IH]; cbn; [by intros ?%elem_of_nil|].
  intros [Hin|Hin]%elem_of_app.
  - apply list_elem_of_fmap in Hin as (z & [= -> ->] & Hz).
    apply list_elem_of_lookup in Hz as [k Hk].
    exists 0%nat, (Datatypes.S k). split; [lia|done].
  - destruct (IH Hin) as (i & j & Hij & Hi & Hj).
    exists (Datatypes.S i), (Datatypes.S j). split; [lia|done].
Qed.

Lemma elem_of_pairs_members {A : Type} (l : list A) (x y : A) :
  (x, y) ∈ pairs l → x ∈ l ∧ y ∈ l.
Proof.
  intros (i & j & _ & Hi & Hj)%elem_of_pairs.
  split; apply list_elem_of_lookup; eauto.
Qed.

Lemma buildNodeMap_lookup nodes k :
  is_Some (buildNodeMap nodes !! k) ↔ k ∈ Node.id <$> nodes.
Proof.
  unfold buildNodeMap.
  assert (∀ m : gmap string Node.t,
    is_Some (foldl (λ m n, <[Node.id n := n]> m) m nodes !! k)
    ↔ is_Some (m !! k) ∨ k ∈ Node.id <$> nodes) as Hgen.
  { induction nodes as [|n nodes IH]; intros m; cbn.
    - rewrite elem_of_nil. tauto.
    - rewrite IH, elem_of_cons, lookup_insert_is_Some.
      destruct (decide (Node.id n = k)) as [->|]; intuition congruence. }
  rewrite Hgen, lookup_empty, is_Some_alt. tauto.
Qed.

Lemma createNode_ids SC (ms : list Method.t) :
  Node.id <$> map (createNode SC) ms = Method.id <$> ms.
Proof. induction ms as [|m ms IH]; cbn; [done|]. by f_equal. Qed.

Lemma elem_of_explicitCalls c methods nodeMap :
  c ∈ explicitCalls methods nodeMap ↔
  ∃ m r, m ∈ methods ∧ r ∈ default [] (Method.related_method_ids m)
         ∧ is_Some (nodeMap !! r)
         ∧ c = {| c_source := Method.id m; c_target := r;
                  c_type := explicit; c_strength := 1 |}.
Proof.
  unfold explicitCalls. rewrite list_elem_of_bind. split.
  - intros (m & Hc & Hm). apply list_elem_of_bind in Hc as (r & Hc & Hr).
    case_bool_decide; [|by apply elem_of_nil in Hc].
    apply list_elem_of_singleton in Hc. eauto 10.
  - intros (m & r & Hm & Hr & Hsome & ->). exists m. split; [|done].
    apply list_elem_of_bind. exists r. split; [|done].
    rewrite bool_decide_eq_true_2 by done. by apply list_elem_of_singleton.
Qed.

Lemma elem_of_sameStepCalls c methods pipelineSteps :
  c ∈ sameStepCalls methods pipelineSteps →
  ∃ mi mj, mi ∈ methods ∧ mj ∈ methods
           ∧ Method.pipeline_step mi = Method.pipeline_step mj
           ∧ c = {| c_source := Method.id mi; c_target := Method.id mj;
                    c_type := sameStep; c_strength := 0.3 |}.
Proof.
  unfold sameStepCalls. intros (step & Hc & Hstep)%list_elem_of_bind.
  apply list_elem_of_bind in Hc as ([mi mj] & Hc & Hp).
  apply list_elem_of_singleton in Hc.
  apply elem_of_pairs_members in Hp as [Hi Hj].
  apply list_elem_of_In, filter_In in Hi as [Hi Hsi].
  apply list_elem_of_In, filter_In in Hj as [Hj Hsj].
  apply String.eqb_eq in Hsi, Hsj.
  exists mi, mj. rewrite <- !list_elem_of_In in *.
  repeat split; try done. cbn. congruence.
Qed.

Lemma elem_of_sharedModalityCalls c methods :
  c ∈ sharedModalityCalls methods →
  ∃ mi mj, mi ∈ methods ∧ mj ∈ methods
           ∧ c_source c = Method.id mi ∧ c_target c = Method.id mj
           ∧ c_type c = sharedModality.
Proof.
  unfold sharedModalityCalls. intros ([mi mj] & Hc & Hp)%list_elem_of_bind.
  cbn in Hc. destruct (_ && _); [|by apply elem_of_nil in Hc].
  apply list_elem_of_singleton in Hc as ->.
  apply elem_of_pairs_members in Hp as [Hi Hj]. by exists mi, mj.
Qed.

Lemma elem_of_sharedTaskCalls c methods :
  c ∈ sharedTaskCalls methods →
  ∃ mi mj, mi ∈ methods ∧ mj ∈ methods
           ∧ c_source c = Method.id mi ∧ c_target c = Method.id mj
           ∧ c_type c = sharedTask.
Proof.
  unfold sharedTaskCalls. intros ([mi mj] & Hc & Hp)%list_elem_of_bind.
  cbn in Hc. destruct (_ && _); [|by apply elem_of_nil in Hc].
  apply list_elem_of_singleton in Hc as ->.
  apply elem_of_pairs_members in Hp as [Hi Hj]. by exists mi, mj.
Qed.

Lemma foldl_snoc_all {A : Type} (l acc : list A) :
  foldl (λ acc x, acc ++ [x]) acc l = acc ++ l.
Proof.
  revert acc. induction l as [|x l IH]; intros acc; cbn.
  - by rewrite app_nil_r.
  - by rewrite IH, <- app_assoc.
Qed.

Lemma collectSimilarities_pairs methods pipelineSteps threshold :
  collectSimilarities methods pipelineSteps threshold
  = p ← pairs methods;
    if Qle_bool threshold (calculateSimilarity p.1 p.2 pipelineSteps)
    then [ {| sim_source := Method.id p.1; sim_target := Method.id p.2;
              similarity := calculateSimilarity p.1 p.2 pipelineSteps |} ]
    else [].
Proof.
  unfold collectSimilarities.
  rewrite (forPairs_by_calls (λ acc x, acc ++ [x]) _
             (λ p, if Qle_bool threshold (calculateSimilarity p.1 p.2 pipelineSteps)
                   then [ {| sim_source := Method.id p.1;
                             sim_target := Method.id p.2;
                             similarity := calculateSimilarity p.1 p.2 pipelineSteps |} ]
                   else [])).
  - by rewrite foldl_snoc_all.
  - intros st x y. cbn. by destruct (Qle_bool _ _).
Qed.

Lemma sortInsert_perm a l : sortInsert a l ≡ₚ a :: l.
Proof.
  induction l as [|b l IH]; cbn; [done|].
  destruct (negb _); [|done].
  rewrite IH. apply Permutation_swap.
Qed.

Lemma sortBySimilarity_perm l : sortBySimilarity l ≡ₚ l.
Proof.
  induction l as [|a l IH]; cbn; [done|].
  unfold sortBySimilarity in *. cbn. by rewrite sortInsert_perm, IH.
Qed.

Lemma acceptLoop_sublist maxSimilarLinks sims accepted counts :
  ∃ new, (foldl (acceptStep maxSimilarLinks) (accepted, counts) sims).1
         = accepted ++ new
         ∧ new `sublist_of` (simCall <$> sims).
Proof.
  revert accepted counts.
  induction sims as [|s sims IH]; intros accepted counts.
  - exists []. cbn. by rewrite app_nil_r.
  - cbn [foldl]. unfold acceptStep at 2. destruct (_ && _).
    + destruct (IH (accepted ++ [simCall s])
                  (<[sim_target s := (default 0%nat (counts !! sim_target s) + 1)%nat]>
                     (<[sim_source s := (default 0%nat (counts !! sim_source s) + 1)%nat]>
                        counts))) as (new & -> & Hsub).
      exists (simCall s :: new). rewrite <- app_assoc. split; [done|].
      by apply sublist_skip.
    + destruct (IH accepted counts) as (new & -> & Hsub).
      exists new. split; [done|]. by apply sublist_cons.
Qed.

Lemma elem_of_similarCalls c methods pipelineSteps threshold maxSimilarLinks :
  c ∈ similarCalls methods pipelineSteps threshold maxSimilarLinks →
  ∃ i j mi mj,
    (i < j)%nat ∧ methods !! i = Some mi ∧ methods !! j = Some mj
    ∧ (threshold <= calculateSimilarity mi mj pipelineSteps)%Q
    ∧ c = {| c_source := Method.id mi; c_target := Method.id mj;
             c_type := similar;
             c_strength := calculateSimilarity mi mj pipelineSteps |}.
Proof.
  unfold similarCalls. intros Hc.
  destruct (acceptLoop_sublist maxSimilarLinks
              (sortBySimilarity
                 (collectSimilarities methods pipelineSteps threshold)) [] ∅)
    as (new & Heq & Hsub).
  rewrite Heq in Hc. cbn in Hc.
  eapply elem_of_sublist in Hc; [|exact Hsub].
  apply list_elem_of_fmap in Hc as (s & -> & Hs).
  rewrite sortBySimilarity_perm, collectSimilarities_pairs in Hs.
  apply list_elem_of_bind in Hs as ([mi mj] & Hs & Hp). cbn in Hs.
  destruct (Qle_bool _ _) eqn:Hle; [|by apply elem_of_nil in Hs].
  apply list_elem_of_singleton in Hs as ->.
  apply Qle_bool_iff in Hle.
  apply elem_of_pairs in Hp as (i & j & Hij & Hi & Hj).
  by exists i, j, mi, mj.
Qed.

(** The invocations are made in stage order. *)
Lemma segment_sorted (r r' : nat) (seg tail : list Call) :
  (r ≤ r')%nat →
  (∀ c, c ∈ seg → stageRank (c_type c) = r) →
  StronglySorted rankLe tail →
  (∀ c, c ∈ tail → (r' ≤ stageRank (c_type c))%nat) →
  StronglySorted rankLe (seg ++ tail)
  ∧ ∀ c, c ∈ seg ++ tail → (r ≤ stageRank (c_type c))%nat.
Proof.
  intros Hr Hseg Htail Hlow. split.
  - apply StronglySorted_app_2; [| |done].
    + intros c1 c2 H1 H2. unfold rankLe.
      rewrite (Hseg _ H1). specialize (Hlow _ H2). lia.
    + clear Htail Hlow. induction seg as [|c seg IH]; constructor.
      * apply IH. intros c' Hc'. apply Hseg. by right.
      * apply Forall_forall. intros c' Hc'. unfold rankLe.
        rewrite (Hseg c), (Hseg c'); [lia| |]; [by right|by left].
  - intros c [Hc|Hc]%elem_of_app.
    + by rewrite (Hseg _ Hc).
    + specialize (Hlow _ Hc). lia.
Qed.

Lemma calls_sorted data options nodeMap :
  StronglySorted rankLe (calls data options nodeMap).
Proof.
  unfold calls.
  set (seg0 := if showExplicitRelations options then _ else _).
  set (seg1 := if showSameStepLinks options then _ else _).
  set (seg2 := if showSharedModalityLinks options then _ else _).
  set (seg3 := if showSharedTaskLinks options then _ else _).
  set (seg4 := if showSimilarMethods options then _ else _).
  assert (∀ c, c ∈ seg0 → stageRank (c_type c) = 0%nat) as H0.
  { intros c Hc. subst seg0. destruct (showExplicitRelations options);
      [|by apply elem_of_nil in Hc].
    by apply elem_of_explicitCalls in Hc as (m & r & _ & _ & _ & ->). }
  assert (∀ c, c ∈ seg1 → stageRank (c_type c) = 1%nat) as H1.
  { intros c Hc. subst seg1. destruct (showSameStepLinks options);
      [|by apply elem_of_nil in Hc].
    by apply elem_of_sameStepCalls in Hc as (mi & mj & _ & _ & _ & ->). }
  assert (∀ c, c ∈ seg2 → stageRank (c_type c) = 2%nat) as H2.
  { intros c Hc. subst seg2. destruct (showSharedModalityLinks options);
      [|by apply elem_of_nil in Hc].
    apply elem_of_sharedModalityCalls in Hc as (mi & mj & _ & _ & _ & _ & Ht).
    by rewrite Ht. }
  assert (∀ c, c ∈ seg3 → stageRank (c_type c) = 3%nat) as H3.
  { intros c Hc. subst seg3. destruct (showSharedTaskLinks options);
      [|by apply elem_of_nil in Hc].
    apply elem_of_sharedTaskCalls in Hc as (mi & mj & _ & _ & _ & _ & Ht).
    by rewrite Ht. }
  assert (∀ c, c ∈ seg4 → stageRank (c_type c) = 4%nat) as H4.
  { intros c Hc. subst seg4. destruct (showSimilarMethods options);
      [|by apply elem_of_nil in Hc].
    by apply elem_of_similarCalls
      in Hc as (i & j & mi & mj & _ & _ & _ & _ & ->). }
  destruct (segment_sorted 4 4 seg4 []) as [S4 L4];
    [lia|done|constructor|by intros c Hc%elem_of_nil|].
  rewrite app_nil_r in S4, L4.
  destruct (segment_sorted 3 4 seg3 seg4) as [S3 L3]; [lia|done..|].
  destruct (segment_sorted 2 3 seg2 (seg3 ++ seg4)) as [S2 L2]; [lia|done..|].
  destruct (segment_sorted 1 2 seg1 (seg2 ++ seg3 ++ seg4)) as [S1 L1];
    [lia|done..|].
  by destruct (segment_sorted 0 1 seg0 (seg1 ++ seg2 ++ seg3 ++ seg4))
    as [S0 _]; [lia|done..|].
Qed.

Lemma calls_later_stage data options nodeMap pre c post c' :
  calls data options nodeMap = pre ++ c :: post →
  c' ∈ c :: post → rankLe c c'.
Proof.
  intros Heq [->|Hc']%elem_of_cons; [unfold rankLe; lia|].
  pose proof (calls_sorted data options nodeMap) as Hs.
  rewrite Heq in Hs. apply StronglySorted_app_1_r in Hs.
  inversion Hs as [|? ? _ Hall]; subst.
  by eapply Forall_forall in Hall.
Qed.

(** ** Graph builder: deduplication, stage priority, self-loops *)

Lemma buildGraphData_links SC data options :
  links (buildGraphData SC data options)
  = st_links (foldl addCall emptyLinks (claims SC data options)).
Proof. unfold buildGraphData, claims. cbn. by rewrite buildLinks_trace. Qed.

Lemma links_first_claim SC data options e :
  e ∈ links (buildGraphData SC data options) →
  ∃ pre c post,
    claims SC data options = pre ++ c :: post ∧ e = callLink c
    ∧ c_source c ≠ c_target c
    ∧ ∀ c', c' ∈ pre →
        ¬ samePair (c_source c') (c_target c') (c_source c) (c_target c).
Proof.
  rewrite buildGraphData_links. intros He.
  apply run_first_claim in He as [He|(pre & c & post & ? & ? & ? & _ & ?)].
  - by apply elem_of_nil in He.
  - by exists pre, c, post.
Qed.

Lemma links_no_self_loop SC data options e :
  e ∈ links (buildGraphData SC data options) → Link.source e ≠ Link.target e.
Proof. by intros (pre & c & post & _ & -> & Hne & _)%links_first_claim. Qed.

Module BuilderExamples.
Import Sample.

(** [a] lists [b], an unknown id and itself; [c] lists [a]; [b] and [c]
    share a step and are 0.9 similar. *)
Example links_allOn :
  summary (buildGraphData noColors cat allOn)
  = [("a", "b", explicit); ("c", "a", explicit); ("b", "c", sameStep)].
Proof. vm_compute. reflexivity. Qed.

Example links_default :
  summary (buildGraphData noColors cat defaultOptions)
  = [("a", "b", explicit); ("c", "a", explicit); ("b", "c", similar)].
Proof. vm_compute. reflexivity. Qed.

Example degrees_default :
  map (λ n, (Node.id n, Node.degree n))
      (nodes (buildGraphData noColors cat defaultOptions))
  = [("a", Some 2%nat); ("b", Some 2%nat); ("c", Some 2%nat)].
Proof. vm_compute. reflexivity. Qed.

(** One explicit reference between two methods: one edge, degrees 1. *)
Example scenario_A :
  summary (buildGraphData noColors pairCat (only true false))
  = [("p", "q", explicit)]
  ∧ Node.degree <$> nodes (buildGraphData noColors pairCat (only true false))
    = [Some 1%nat; Some 1%nat].
Proof. split; vm_compute; reflexivity. Qed.

(** Five methods of one step, same-step links only: C(5,2) = 10 edges. *)
Example scenario_B :
  length (links (buildGraphData noColors fiveCat (only false true))) = 10%nat
  ∧ Forall (λ e, Link.type e = sameStep)
           (links (buildGraphData noColors fiveCat (only false true))).
Proof. split; [vm_compute; reflexivity|]. vm_compute. repeat constructor. Qed.

(** The sort is descending and keeps ties in their order. *)
Example sort_stable :
  sim_source <$> sortBySimilarity sims3 = ["c"; "a"; "e"].
Proof. reflexivity. Qed.
End BuilderExamples.

(** C1: in every built graph two entries of the edge list never join the
    same unordered pair of identifiers; and every edge is the link of an
    [addLink] invocation of the build whose stage is the earliest among all
    invocations, by any stage, on that unordered pair (stages ordered
    explicit, same-step, shared-modality, shared-task, similar).  The
    invocations are those of the build: its edge list is the fold of
    [addLink] over them. *)
Theorem buildGraphData_one_edge_per_pair SC data options :
  (∀ i j e1 e2,
     links (buildGraphData SC data options) !! i = Some e1 →
     links (buildGraphData SC data options) !! j = Some e2 →
     samePair (Link.source e1) (Link.target e1)
              (Link.source e2) (Link.target e2) →
     i = j)
  ∧ (∀ e, e ∈ links (buildGraphData SC data options) →
       (∃ c, c ∈ claims SC data options ∧ e = callLink c)
       ∧ ∀ c', c' ∈ claims SC data options →
           samePair (c_source c') (c_target c')
                    (Link.source e) (Link.target e) →
           (stageRank (Link.type e) ≤ stageRank (c_type c'))%nat)
  ∧ links (buildGraphData SC data options)
    = st_links (foldl addCall emptyLinks (claims SC data options)).
Proof.
  split; [|split; [|apply buildGraphData_links]].
  - intros i j e1 e2 Hi Hj Hsame.
    destruct (keysRecorded_run (claims SC data options) emptyLinks
                keysRecorded_empty) as [_ Hnd].
    rewrite <- buildGraphData_links in Hnd.
    eapply NoDup_lookup; [exact Hnd| |].
    + rewrite list_lookup_fmap, Hi. reflexivity.
    + rewrite list_lookup_fmap, Hj. cbn. f_equal.
      symmetry. by apply linkKey_samePair.
  - intros e (pre & c & post & Heq & -> & Hne & Hpre)%links_first_claim.
    split.
    + exists c. split; [|done]. rewrite Heq. set_solver.
    + intros c' Hc' Hsame. cbn in Hsame. rewrite Heq in Hc'.
      apply elem_of_app in Hc' as [Hc'|Hc'].
      * by destruct (Hpre c' Hc').
      * unfold claims in Heq. by eapply calls_later_stage.
Qed.

Lemma buildGraphData_one_edge_per_pair_witness :
  (stageRank (Link.type Sample.eBC)
   ≤ stageRank (c_type Sample.cBC))%nat.
Proof.
  apply (proj1 (proj2 (buildGraphData_one_edge_per_pair Sample.noColors
                         Sample.cat Sample.allOn))
               Sample.eBC).
  - apply list_elem_of_lookup. exists 2%nat. vm_compute. reflexivity.
  - apply list_elem_of_In. vm_compute.
    repeat (first [left; reflexivity | right]).
  - left. split; reflexivity.
Defined.

(** C10: no edge of a built graph is a self-loop, whatever the related-id
    lists contain; an [addLink] whose two endpoints are equal changes
    nothing, in whichever stage it is made. *)
Theorem buildGraphData_no_self_loop SC data options :
  (∀ e, e ∈ links (buildGraphData SC data options) →
        Link.source e ≠ Link.target e)
  ∧ (∀ st s type strength, addLink st s s type strength = st).
Proof.
  split.
  - intros e. apply links_no_self_loop.
  - intros st s type strength. unfold addLink.
    by rewrite String.eqb_refl, andb_false_r.
Qed.

(** ** Graph builder: the per-node cap of the similarity stage *)

Lemma sublist_filter_length {A : Type} (P : A → Prop)
    `{∀ x, Decision (P x)} (l1 l2 : list A) :
  l1 `sublist_of` l2 → (length (filter P l1) ≤ length (filter P l2))%nat.
Proof.
  induction 1 as [|x l1 l2 _ IH|x l1 l2 _ IH]; [done| |].
  - rewrite !filter_cons. destruct (decide (P x)); cbn; lia.
  - rewrite filter_cons. destruct (decide (P x)); cbn; lia.
Qed.

Lemma filter_none {A : Type} (P : A → Prop) `{∀ x, Decision (P x)}
    (l : list A) :
  (∀ x, x ∈ l → ¬ P x) → filter P l = [].
Proof.
  induction l as [|x l IH]; intros Hl; [done|].
  rewrite filter_cons_False; [|apply Hl; by left].
  apply IH. intros y Hy. apply Hl. by right.
Qed.

Lemma capInvariant_step maxSimilarLinks acc s :
  capInvariant maxSimilarLinks acc →
  capInvariant maxSimilarLinks (acceptStep maxSimilarLinks acc s).
Proof.
  destruct acc as [accepted counts]. intros Hinv. unfold acceptStep.
  destruct (_ && _) eqn:Hcond; [|done].
  apply andb_true_iff in Hcond as [Hs Ht].
  apply Nat.ltb_lt in Hs, Ht.
  intros n. destruct (Hinv n) as [Hcov Hcap]. cbn in *.
  unfold incidentCalls in *. rewrite filter_app, length_app, filter_cons, filter_nil.
  destruct (decide (sim_target s = n)) as [<-|Hnt].
  - rewrite lookup_insert_eq. cbn.
    destruct (decide _); cbn; lia.
  - rewrite lookup_insert_ne by done.
    destruct (decide (sim_source s = n)) as [<-|Hns].
    + rewrite lookup_insert_eq. cbn.
      destruct (decide _); cbn; lia.
    + rewrite lookup_insert_ne by done.
      destruct (decide _) as [[?|?]|_]; [done..|]. cbn. lia.
Qed.

Lemma capInvariant_loop maxSimilarLinks sims acc :
  capInvariant maxSimilarLinks acc →
  capInvariant maxSimilarLinks (foldl (acceptStep maxSimilarLinks) acc sims).
Proof.
  revert acc. induction sims as [|s sims IH]; intros acc Hinv; [done|].
  cbn [foldl]. by apply IH, capInvariant_step.
Qed.

Lemma similarCalls_capped methods pipelineSteps threshold maxSimilarLinks n :
  (incidentCalls n
     (similarCalls methods pipelineSteps threshold maxSimilarLinks)
   ≤ maxSimilarLinks)%nat.
Proof.
  unfold similarCalls.
  destruct (capInvariant_loop maxSimilarLinks
              (sortBySimilarity
                 (collectSimilarities methods pipelineSteps threshold))
              ([], ∅)) with (n := n) as [Hcov Hcap].
  - intros k. cbn. rewrite lookup_empty. cbn. lia.
  - lia.
Qed.

(** Membership in the invocations of a build, by stage. *)
Lemma elem_of_calls c data options nodeMap :
  c ∈ calls data options nodeMap →
  (c_type c = explicit ∧ c ∈ explicitCalls (methods data) nodeMap)
  ∨ (c_type c = sameStep
     ∧ c ∈ sameStepCalls (methods data) (pipelineSteps data))
  ∨ (c_type c = sharedModality ∧ c ∈ sharedModalityCalls (methods data))
  ∨ (c_type c = sharedTask ∧ c ∈ sharedTaskCalls (methods data))
  ∨ (c_type c = similar ∧ showSimilarMethods options = true
     ∧ c ∈ similarCalls (methods data) (pipelineSteps data)
           (similarityThreshold options) (maxSimilarLinks options)).
Proof.
  unfold calls. rewrite !elem_of_app.
  intros [Hc|[Hc|[Hc|[Hc|Hc]]]].
  - destruct (showExplicitRelations options); [|by apply elem_of_nil in Hc].
    left. split; [|done].
    by apply elem_of_explicitCalls in Hc as (m & r & _ & _ & _ & ->).
  - destruct (showSameStepLinks options); [|by apply elem_of_nil in Hc].
    right; left. split; [|done].
    by apply elem_of_sameStepCalls in Hc as (mi & mj & _ & _ & _ & ->).
  - destruct (showSharedModalityLinks options); [|by apply elem_of_nil in Hc].
    right; right; left. split; [|done].
    by apply elem_of_sharedModalityCalls in Hc as (mi & mj & _ & _ & _ & _ & ?).
  - destruct (showSharedTaskLinks options); [|by apply elem_of_nil in Hc].
    right; right; right; left. split; [|done].
    by apply elem_of_sharedTaskCalls in Hc as (mi & mj & _ & _ & _ & _ & ?).
  - destruct (showSimilarMethods options); [|by apply elem_of_nil in Hc].
    right; right; right; right. split; [|done].
    by apply elem_of_similarCalls
      in Hc as (i & j & mi & mj & _ & _ & _ & _ & ->).
Qed.

Lemma calls_split data options nodeMap :
  ∃ early,
    calls data options nodeMap
    = early ++ (if showSimilarMethods options
                then similarCalls (methods data) (pipelineSteps data)
                       (similarityThreshold options) (maxSimilarLinks options)
                else [])
    ∧ ∀ c, c ∈ early → c_type c ≠ similar.
Proof.
  unfold calls.
  exists ((if showExplicitRelations options
           then explicitCalls (methods data) nodeMap else []) ++
          (if showSameStepLinks options
           then sameStepCalls (methods data) (pipelineSteps data) else []) ++
          (if showSharedModalityLinks options
           then sharedModalityCalls (methods data) else []) ++
          (if showSharedTaskLinks options
           then sharedTaskCalls (methods data) else [])).
  split; [by rewrite <- !app_assoc|].
  intros c. rewrite !elem_of_app. intros [Hc|[Hc|[Hc|Hc]]].
  - destruct (showExplicitRelations options); [|by apply elem_of_nil in Hc].
    by apply elem_of_explicitCalls in Hc as (m & r & _ & _ & _ & ->).
  - destruct (showSameStepLinks options); [|by apply elem_of_nil in Hc].
    by apply elem_of_sameStepCalls in Hc as (mi & mj & _ & _ & _ & ->).
  - destruct (showSharedModalityLinks options); [|by apply elem_of_nil in Hc].
    apply elem_of_sharedModalityCalls in Hc as (mi & mj & _ & _ & _ & _ & Ht).
    by rewrite Ht.
  - destruct (showSharedTaskLinks options); [|by apply elem_of_nil in Hc].
    apply elem_of_sharedTaskCalls in Hc as (mi & mj & _ & _ & _ & _ & Ht).
    by rewrite Ht.
Qed.

Lemma similarDegree_calls n cs :
  (similarDegree n (callLink <$> cs)
   ≤ incidentCalls n (filter (λ c, c_type c = similar) cs))%nat.
Proof.
  unfold similarDegree, incidentCalls.
  induction cs as [|c cs IH]; [done|].
  rewrite fmap_cons, !filter_cons. cbn.
  destruct (decide (c_type c = similar ∧ _)) as [[Ht Hn]|Hno].
  - rewrite decide_True by done. rewrite filter_cons, decide_True by done.
    cbn. lia.
  - destruct (decide (c_type c = similar)); [|done].
    rewrite filter_cons. destruct (decide _); cbn; lia.
Qed.

Lemma filter_all {A : Type} (P : A → Prop) `{∀ x, Decision (P x)}
    (l : list A) :
  (∀ x, x ∈ l → P x) → filter P l = l.
Proof.
  induction l as [|x l IH]; intros Hl; [done|].
  rewrite filter_cons_True by (apply Hl; by left).
  f_equal. apply IH. intros y Hy. apply Hl. by right.
Qed.

(** C3: in every built graph, for every identifier (so for every node),
    the number of edges of type [similar] that have it as an endpoint is at
    most [maxSimilarLinks]; edges of other types do not enter the count. *)
Theorem buildGraphData_similar_cap SC data options n :
  (similarDegree n (links (buildGraphData SC data options))
   ≤ maxSimilarLinks options)%nat.
Proof.
  rewrite buildGraphData_links.
  destruct (run_sublist (claims SC data options) emptyLinks)
    as (added & -> & Hsub).
  cbn [emptyLinks st_links app].
  etrans; [apply sublist_filter_length, Hsub|].
  etrans; [apply similarDegree_calls|].
  unfold claims.
  destruct (calls_split data options
              (buildNodeMap (map (createNode SC) (methods data))))
    as (early & -> & Hearly).
  rewrite filter_app, (filter_none _ early) by done. cbn [app].
  destruct (showSimilarMethods options); [|cbn; lia].
  rewrite filter_all.
  - apply similarCalls_capped.
  - intros c Hc.
    by apply elem_of_similarCalls
      in Hc as (i & j & mi & mj & _ & _ & _ & _ & ->).
Qed.

(** ** Graph builder: degrees *)

Lemma degreeStep_lookup degreeMap link n :
  default 0%nat (degreeStep degreeMap link !! n)
  = (default 0%nat (degreeMap !! n)
     + (if decide (Link.source link = n) then 1 else 0)
     + (if decide (Link.target link = n) then 1 else 0))%nat.
Proof.
  unfold degreeStep.
  destruct (decide (Link.target link = n)) as [<-|Hnt].
  - rewrite lookup_insert_eq. cbn.
    destruct (decide (Link.source link = Link.target link)) as [Heq|Hne].
    + rewrite Heq, lookup_insert_eq. cbn. lia.
    + rewrite lookup_insert_ne by done. lia.
  - rewrite lookup_insert_ne by done.
    destruct (decide (Link.source link = n)) as [<-|Hns].
    + rewrite lookup_insert_eq. cbn. lia.
    + rewrite lookup_insert_ne by done. lia.
Qed.

Lemma buildDegreeMap_lookup links degreeMap n :
  default 0%nat (foldl degreeStep degreeMap links !! n)
  = (default 0%nat (degreeMap !! n) + asSource n links + asTarget n links)%nat.
Proof.
  revert degreeMap. unfold asSource, asTarget.
  induction links as [|link links IH]; intros degreeMap; cbn [foldl].
  - cbn. lia.
  - rewrite IH, degreeStep_lookup, !filter_cons.
    destruct (decide (Link.source link = n)),
             (decide (Link.target link = n)); cbn; lia.
Qed.

Lemma edgesAt_split n links :
  (∀ e, e ∈ links → Link.source e ≠ Link.target e) →
  edgesAt n links = (asSource n links + asTarget n links)%nat.
Proof.
  unfold edgesAt, asSource, asTarget.
  induction links as [|e links IH]; intros Hloop; [done|].
  rewrite !filter_cons.
  assert (Link.source e ≠ Link.target e) as Hne by (apply Hloop; by left).
  specialize (IH (λ e' He', Hloop e' (list_elem_of_further _ _ _ He'))).
  destruct (decide (Link.source e = n)), (decide (Link.target e = n));
    try congruence.
  - rewrite decide_True by (by left). cbn [length]. lia.
  - rewrite decide_True by (by right). cbn [length]. lia.
  - rewrite decide_False by (by intros [?|?]). lia.
Qed.

(** C5: in every built graph the stored degree of every node is the number
    of edges of the edge list that reference the node's identifier as an
    endpoint, which is the number of edges with it as source plus the number
    with it as target. *)
Theorem buildGraphData_degree SC data options node :
  node ∈ nodes (buildGraphData SC data options) →
  Node.degree node
  = Some (edgesAt (Node.id node) (links (buildGraphData SC data options)))
  ∧ edgesAt (Node.id node) (links (buildGraphData SC data options))
    = (asSource (Node.id node) (links (buildGraphData SC data options))
       + asTarget (Node.id node) (links (buildGraphData SC data options)))%nat.
Proof.
  intros Hnode.
  assert (edgesAt (Node.id node) (links (buildGraphData SC data options))
          = (asSource (Node.id node) (links (buildGraphData SC data options))
             + asTarget (Node.id node)
                 (links (buildGraphData SC data options)))%nat) as Hsplit.
  { apply edgesAt_split. intros e. apply links_no_self_loop. }
  split; [|done]. rewrite Hsplit.
  unfold buildGraphData in Hnode. cbn [nodes] in Hnode.
  apply list_elem_of_fmap in Hnode as (n0 & -> & _). cbn.
  f_equal. unfold buildDegreeMap. rewrite buildDegreeMap_lookup, lookup_empty.
  reflexivity.
Qed.

Lemma buildGraphData_degree_witness :
  Node.degree
    (Node.set_degree 2 (createNode Sample.noColors Sample.mB))
  = Some (edgesAt "b"
            (links (buildGraphData Sample.noColors
                      Sample.cat defaultOptions))).
Proof.
  apply (buildGraphData_degree Sample.noColors Sample.cat
           defaultOptions
           (Node.set_degree 2
              (createNode Sample.noColors Sample.mB))).
  apply list_elem_of_lookup. exists 1%nat. vm_compute. reflexivity.
Defined.

(** ** Graph builder: the similarity threshold *)

(** C8: every edge of type [similar] joins two methods of the catalog, the
    first listed before the second, whose score is its strength and is at
    least the threshold; so when every pair of methods scores below the
    threshold the graph has no edge of type [similar], whatever the cap. *)
Theorem buildGraphData_similar_threshold SC data options :
  (∀ e, e ∈ links (buildGraphData SC data options) →
     Link.type e = similar →
     ∃ i j mi mj,
       (i < j)%nat ∧ methods data !! i = Some mi ∧ methods data !! j = Some mj
       ∧ Link.source e = Method.id mi ∧ Link.target e = Method.id mj
       ∧ Link.strength e = calculateSimilarity mi mj (pipelineSteps data)
       ∧ (similarityThreshold options
          <= calculateSimilarity mi mj (pipelineSteps data))%Q)
  ∧ ((∀ mi mj, mi ∈ methods data → mj ∈ methods data →
        (calculateSimilarity mi mj (pipelineSteps data)
         < similarityThreshold options)%Q) →
     filter (λ e, Link.type e = similar)
            (links (buildGraphData SC data options)) = []).
Proof.
  assert (∀ e, e ∈ links (buildGraphData SC data options) →
     Link.type e = similar →
     ∃ i j mi mj,
       (i < j)%nat ∧ methods data !! i = Some mi ∧ methods data !! j = Some mj
       ∧ Link.source e = Method.id mi ∧ Link.target e = Method.id mj
       ∧ Link.strength e = calculateSimilarity mi mj (pipelineSteps data)
       ∧ (similarityThreshold options
          <= calculateSimilarity mi mj (pipelineSteps data))%Q) as Hfrom.
  { intros e (pre & c & post & Heq & -> & _)%links_first_claim Htype.
    cbn in Htype.
    assert (c ∈ claims SC data options) as Hc by (rewrite Heq; set_solver).
    apply elem_of_calls in Hc
      as [[? _]|[[? _]|[[? _]|[[? _]|(_ & _ & Hc)]]]]; try congruence.
    apply elem_of_similarCalls
      in Hc as (i & j & mi & mj & Hij & Hi & Hj & Hle & ->).
    by exists i, j, mi, mj. }
  split; [done|].
  intros Hbelow. apply filter_none. intros e He Htype.
  destruct (Hfrom e He Htype) as (i & j & mi & mj & _ & Hi & Hj & _ & _ & _ & Hle).
  apply (Qlt_not_le _ _ (Hbelow mi mj ltac:(by eapply list_elem_of_lookup_2)
                                        ltac:(by eapply list_elem_of_lookup_2))).
  exact Hle.
Qed.

Lemma buildGraphData_similar_threshold_witness :
  filter (λ e, Link.type e = similar)
         (links (buildGraphData Sample.noColors Sample.cat
                   Sample.strict)) = [].
Proof.
  apply (proj2 (buildGraphData_similar_threshold Sample.noColors
                  Sample.cat Sample.strict)).
  intros mi mj Hi Hj.
  apply list_elem_of_In in Hi, Hj. cbn in Hi, Hj.
  destruct Hi as [<-|[<-|[<-|[]]]], Hj as [<-|[<-|[<-|[]]]];
    vm_compute; reflexivity.
Defined.

(** ** Graph builder: unresolved related-ids *)

Lemma pairs_fmap {A B : Type} (f : A → B) (l : list A) :
  pairs (f <$> l) = prod_map f f <$> pairs l.
Proof.
  induction l as [|x l IH]; [done|].
  cbn. rewrite fmap_app, IH. f_equal.
  rewrite <- !list_fmap_compose. by apply list_fmap_ext.
Qed.

Lemma list_bind_ext' {A B : Type} (f g : A → list B) (l : list A) :
  (∀ x, f x = g x) → l ≫= f = l ≫= g.
Proof.
  intros Hfg. induction l as [|x l IH]; [done|].
  cbn. by rewrite Hfg, IH.
Qed.

Lemma stepFilter_prune known stepId (ms : list Method.t) :
  List.filter (λ m, String.eqb (Method.pipeline_step m) stepId)
              (pruneRelated known <$> ms)
  = pruneRelated known
      <$> List.filter (λ m, String.eqb (Method.pipeline_step m) stepId) ms.
Proof.
  induction ms as [|m ms IH]; [done|].
  cbn. destruct (String.eqb _ _); cbn; by rewrite IH.
Qed.

Lemma explicitCalls_prune known (ms : list Method.t)
    (nodeMap nodeMap' : gmap string Node.t) :
  (∀ r, is_Some (nodeMap !! r) ↔ r ∈ known) →
  (∀ r, is_Some (nodeMap' !! r) ↔ r ∈ known) →
  explicitCalls (pruneRelated known <$> ms) nodeMap'
  = explicitCalls ms nodeMap.
Proof.
  intros Hnm Hnm'. unfold explicitCalls.
  rewrite list_fmap_bind. apply list_bind_ext'. intros m. cbn.
  destruct (Method.related_method_ids m) as [rs|]; [|done]. cbn.
  induction rs as [|r rs IH]; [done|].
  rewrite filter_cons. cbn.
  destruct (decide (r ∈ known)) as [Hr|Hr]; cbn.
  - rewrite IH. f_equal.
    rewrite !bool_decide_eq_true_2; [done|by apply Hnm|by apply Hnm'].
  - rewrite IH. rewrite (bool_decide_eq_false_2 (is_Some (nodeMap !! r))); [done|].
    by rewrite Hnm.
Qed.

Lemma sameStepCalls_prune known ms pipelineSteps :
  sameStepCalls (pruneRelated known <$> ms) pipelineSteps
  = sameStepCalls ms pipelineSteps.
Proof.
  unfold sameStepCalls. apply list_bind_ext'. intros step.
  rewrite stepFilter_prune, pairs_fmap, list_fmap_bind.
  apply list_bind_ext'. by intros [mi mj].
Qed.

Lemma sharedModalityCalls_prune known ms :
  sharedModalityCalls (pruneRelated known <$> ms) = sharedModalityCalls ms.
Proof.
  unfold sharedModalityCalls. rewrite pairs_fmap, list_fmap_bind.
  apply list_bind_ext'. by intros [mi mj].
Qed.

Lemma sharedTaskCalls_prune known ms :
  sharedTaskCalls (pruneRelated known <$> ms) = sharedTaskCalls ms.
Proof.
  unfold sharedTaskCalls. rewrite pairs_fmap, list_fmap_bind.
  apply list_bind_ext'. by intros [mi mj].
Qed.

Lemma similarCalls_prune known ms pipelineSteps threshold maxSimilarLinks :
  similarCalls (pruneRelated known <$> ms) pipelineSteps threshold maxSimilarLinks
  = similarCalls ms pipelineSteps threshold maxSimilarLinks.
Proof.
  unfold similarCalls. do 3 f_equal.
  rewrite !collectSimilarities_pairs, pairs_fmap, list_fmap_bind.
  apply list_bind_ext'. by intros [mi mj].
Qed.

Lemma knownIds_prune data : knownIds (pruneStale data) = knownIds data.
Proof.
  unfold knownIds, pruneStale. cbn.
  rewrite <- list_fmap_compose. by apply list_fmap_ext.
Qed.

Lemma nodeMap_known SC data r :
  is_Some (buildNodeMap (map (createNode SC) (methods data)) !! r)
  ↔ r ∈ knownIds data.
Proof. by rewrite buildNodeMap_lookup, createNode_ids. Qed.

Lemma claims_prune SC data options :
  claims SC (pruneStale data) options = claims SC data options.
Proof.
  unfold claims, calls.
  change (methods (pruneStale data))
    with (pruneRelated (knownIds data) <$> methods data).
  change (pipelineSteps (pruneStale data)) with (pipelineSteps data).
  rewrite (explicitCalls_prune (knownIds data) (methods data)
             (buildNodeMap (map (createNode SC) (methods data)))).
  - by rewrite sameStepCalls_prune, sharedModalityCalls_prune,
         sharedTaskCalls_prune, similarCalls_prune.
  - intros r. apply nodeMap_known.
  - intros r.
    change (pruneRelated (knownIds data) <$> methods data)
      with (methods (pruneStale data)).
    by rewrite nodeMap_known, knownIds_prune.
Qed.

Lemma claims_known SC data options c :
  c ∈ claims SC data options →
  c_source c ∈ knownIds data ∧ c_target c ∈ knownIds data.
Proof.
  unfold knownIds.
  intros [[_ Hc]|[[_ Hc]|[[_ Hc]|[[_ Hc]|(_ & _ & Hc)]]]]%elem_of_calls.
  - apply elem_of_explicitCalls in Hc as (m & r & Hm & _ & Hr & ->). cbn.
    split; [by apply list_elem_of_fmap_2|].
    by apply nodeMap_known in Hr.
  - apply elem_of_sameStepCalls in Hc as (mi & mj & Hi & Hj & _ & ->). cbn.
    split; by apply list_elem_of_fmap_2.
  - apply elem_of_sharedModalityCalls
      in Hc as (mi & mj & Hi & Hj & Hs & Ht & _).
    rewrite Hs, Ht. split; by apply list_elem_of_fmap_2.
  - apply elem_of_sharedTaskCalls in Hc as (mi & mj & Hi & Hj & Hs & Ht & _).
    rewrite Hs, Ht. split; by apply list_elem_of_fmap_2.
  - apply elem_of_similarCalls
      in Hc as (i & j & mi & mj & _ & Hi & Hj & _ & ->). cbn.
    split; eapply list_elem_of_fmap_2, list_elem_of_lookup_2; eauto.
Qed.

Lemma degrees_of_graph SC data options :
  Node.degree <$> nodes (buildGraphData SC data options)
  = (λ m, Some (default 0%nat
                  (buildDegreeMap (links (buildGraphData SC data options))
                     !! Method.id m)))
      <$> methods data.
Proof.
  unfold buildGraphData. cbn [nodes links].
  change (@map) with (@fmap list list_fmap).
  rewrite <- !list_fmap_compose. by apply list_fmap_ext.
Qed.

(** C9: [buildGraphData] is a total function, so a related-id that names
    no method of the catalog raises nothing; no edge of the built graph has
    such an id as an endpoint; and the edges and the degrees of the graph
    are those built from the catalog with all such ids removed. *)
Theorem buildGraphData_stale_reference SC data options :
  (∀ m r e,
     m ∈ methods data →
     r ∈ default [] (Method.related_method_ids m) →
     r ∉ knownIds data →
     e ∈ links (buildGraphData SC data options) →
     Link.source e ≠ r ∧ Link.target e ≠ r)
  ∧ links (buildGraphData SC data options)
    = links (buildGraphData SC (pruneStale data) options)
  ∧ Node.degree <$> nodes (buildGraphData SC data options)
    = Node.degree <$> nodes (buildGraphData SC (pruneStale data) options).
Proof.
  assert (links (buildGraphData SC data options)
          = links (buildGraphData SC (pruneStale data) options)) as Hlinks.
  { by rewrite !buildGraphData_links, claims_prune. }
  split; [|split; [done|]].
  - intros m r e _ _ Hstale
      (pre & c & post & Heq & -> & _)%links_first_claim.
    assert (c ∈ claims SC data options) as Hc by (rewrite Heq; set_solver).
    apply claims_known in Hc as [Hs Ht]. cbn.
    split; intros <-; by apply Hstale.
  - rewrite !degrees_of_graph, <- Hlinks.
    unfold pruneStale. cbn [methods].
    rewrite <- list_fmap_compose. by apply list_fmap_ext.
Qed.

Lemma buildGraphData_stale_reference_witness :
  Link.source
    Sample.eAB ≠ "zz"
  ∧ Link.target
      Sample.eAB ≠ "zz".
Proof.
  apply (proj1 (buildGraphData_stale_reference Sample.noColors
                  Sample.cat defaultOptions)
               Sample.mA "zz").
  - by left.
  - cbn. right. by left.
  - rewrite list_elem_of_In. cbn. intuition discriminate.
  - apply list_elem_of_lookup. exists 0%nat. vm_compute. reflexivity.
Defined.

(** ** Cluster regions *)

Section MapFacts.
Context {V : Type}.
Implicit Types (m : list (string * V)) (k : string) (v : V).

Lemma mapSet_present m k v :
  k ∈ fst <$> m → fst <$> mapSet m k v = fst <$> m.
Proof.
  induction m as [|[k0 v0] m IH]; cbn; [by intros ?%elem_of_nil|].
  intros Hk. destruct (String.eqb_spec k0 k) as [->|Hne]; [done|].
  cbn. f_equal. apply IH.
  apply elem_of_cons in Hk as [->|Hk]; done.
Qed.

Lemma mapSet_absent m k v :
  k ∉ fst <$> m → mapSet m k v = m ++ [(k, v)].
Proof.
  induction m as [|[k0 v0] m IH]; cbn; [done|].
  intros Hk. apply not_elem_of_cons in Hk as [Hne Hk].
  destruct (String.eqb_spec k0 k) as [->|_]; [done|].
  by rewrite IH.
Qed.

Lemma elem_of_mapSet m k v k' v' :
  NoDup (fst <$> m) →
  (k', v') ∈ mapSet m k v →
  (k', v') = (k, v) ∨ ((k', v') ∈ m ∧ k' ≠ k).
Proof.
  induction m as [|[k0 v0] m IH]; cbn.
  - intros _ ->%list_elem_of_singleton. by left.
  - intros [Hk0 Hnd]%NoDup_cons.
    destruct (String.eqb_spec k0 k) as [->|Hne].
    + intros [->|Hin]%elem_of_cons; [by left|].
      right. split; [by right|]. intros ->. apply Hk0.
      by apply (list_elem_of_fmap_2 fst) in Hin.
    + intros [[= -> ->]|Hin]%elem_of_cons.
      * right. split; [by left|done].
      * destruct (IH Hnd Hin) as [?|[? ?]]; [by left|].
        right. split; [by right|done].
Qed.

Lemma mapSet_NoDup m k v :
  NoDup (fst <$> m) → NoDup (fst <$> mapSet m k v).
Proof.
  intros Hnd. destruct (decide (k ∈ fst <$> m)) as [Hk|Hk].
  - by rewrite mapSet_present.
  - rewrite mapSet_absent, fmap_app by done. cbn.
    apply NoDup_app. split; [done|]. split; [|apply NoDup_singleton].
    by intros k' Hk' ->%list_elem_of_singleton.
Qed.

Lemma mapSet_keys m k v k' :
  k' ∈ fst <$> mapSet m k v ↔ k' = k ∨ k' ∈ fst <$> m.
Proof.
  destruct (decide (k ∈ fst <$> m)) as [Hk|Hk].
  - rewrite mapSet_present by done. split; [by right|]. by intros [->|?].
  - rewrite mapSet_absent, fmap_app, elem_of_app by done. cbn.
    rewrite list_elem_of_singleton. tauto.
Qed.

Lemma mapGet_Some m k v : mapGet m k = Some v → (k, v) ∈ m.
Proof.
  unfold mapGet. destruct (List.find _ m) as [[k0 v0]|] eqn:Hfind; [|done].
  intros [= ->]. apply find_some in Hfind as [Hin Heq].
  apply String.eqb_eq in Heq. cbn in Heq. subst.
  by apply list_elem_of_In.
Qed.

Lemma mapGet_None m k : mapGet m k = None → k ∉ fst <$> m.
Proof.
  unfold mapGet. destruct (List.find _ m) as [[k0 v0]|] eqn:Hfind; [done|].
  intros _ ([k' v'] & -> & Hin)%list_elem_of_fmap.
  apply list_elem_of_In in Hin.
  pose proof (find_none _ _ Hfind _ Hin) as Hno. cbn in Hno.
  by rewrite String.eqb_refl in Hno.
Qed.
End MapFacts.

Section ClusterFacts.
Variable STEP_COLORS : string → option string.

Lemma initClusters_spec pipelineSteps :
  clustersInvariant (initClusters STEP_COLORS pipelineSteps) []
  ∧ ∀ k, k ∈ fst <$> initClusters STEP_COLORS pipelineSteps
         ↔ k ∈ Step.id <$> pipelineSteps.
Proof.
  unfold initClusters.
  assert (∀ m : list (string * Cluster),
    clustersInvariant m [] →
    clustersInvariant
      (foldl (λ clusters step,
                mapSet clusters (Step.id step)
                  {| cl_id := Step.id step; cl_name := Step.name step;
                     cl_color := STEP_COLORS (Step.id step);
                     cl_nodes := [] |}) m pipelineSteps) []
    ∧ ∀ k, k ∈ fst <$> foldl (λ clusters step,
                mapSet clusters (Step.id step)
                  {| cl_id := Step.id step; cl_name := Step.name step;
                     cl_color := STEP_COLORS (Step.id step);
                     cl_nodes := [] |}) m pipelineSteps
           ↔ k ∈ fst <$> m ∨ k ∈ Step.id <$> pipelineSteps) as Hgen.
  { induction pipelineSteps as [|step steps IH]; intros m Hinv.
    - split; [done|]. intros k. cbn. rewrite elem_of_nil. tauto.
    - cbn [foldl]. destruct Hinv as [Hnd Hent].
      destruct (IH (mapSet m (Step.id step)
                      {| cl_id := Step.id step; cl_name := Step.name step;
                         cl_color := STEP_COLORS (Step.id step);
                         cl_nodes := [] |})) as [Hinv' Hkeys].
      + split; [by apply mapSet_NoDup|].
        intros k c [[= -> ->]|[Hin _]]%elem_of_mapSet; [done| |done].
        by apply Hent.
      + split; [done|]. intros k.
        rewrite Hkeys, mapSet_keys, fmap_cons, elem_of_cons. tauto. }
  destruct (Hgen []) as [Hinv Hkeys].
  - split; [constructor|]. by intros k c ?%elem_of_nil.
  - split; [done|]. intros k. rewrite Hkeys. cbn. rewrite elem_of_nil. tauto.
Qed.

Lemma assignNode_spec m seen node :
  clustersInvariant m seen →
  clustersInvariant (assignNode m node) (seen ++ [node])
  ∧ fst <$> assignNode m node = fst <$> m.
Proof.
  intros [Hnd Hent]. unfold assignNode.
  destruct (mapGet m (Node.pipelineStep node)) as [cluster|] eqn:Hget.
  - apply mapGet_Some in Hget.
    assert (Node.pipelineStep node ∈ fst <$> m) as Hkey
      by (by apply (list_elem_of_fmap_2 fst) in Hget).
    split; [|by apply mapSet_present].
    split; [by apply mapSet_NoDup|].
    intros k c [[= -> ->]|[Hin Hne]]%elem_of_mapSet; [| |done].
    + destruct (Hent _ _ Hget) as [Hid Hnodes]. cbn.
      rewrite filter_app, filter_cons_True, filter_nil by done.
      by rewrite Hnodes.
    + destruct (Hent _ _ Hin) as [Hid Hnodes].
      rewrite filter_app, filter_cons_False, filter_nil, app_nil_r by done.
      done.
  - apply mapGet_None in Hget. split; [|done]. split; [done|].
    intros k c Hin. destruct (Hent _ _ Hin) as [Hid Hnodes].
    rewrite filter_app, filter_cons_False, filter_nil, app_nil_r; [done|].
    intros Heq. apply Hget. rewrite Heq.
    by apply (list_elem_of_fmap_2 fst) in Hin.
Qed.

Lemma assignNodes_spec nodes m seen :
  clustersInvariant m seen →
  clustersInvariant (foldl assignNode m nodes) (seen ++ nodes)
  ∧ fst <$> foldl assignNode m nodes = fst <$> m.
Proof.
  revert m seen. induction nodes as [|node nodes IH]; intros m seen Hinv.
  - by rewrite app_nil_r.
  - cbn [foldl]. destruct (assignNode_spec m seen node Hinv) as [Hinv' Hk].
    destruct (IH _ _ Hinv') as [Hinv'' Hk'].
    rewrite <- app_assoc in Hinv''. split; [done|]. by rewrite Hk', Hk.
Qed.

Lemma elem_of_computeClusterHulls nodes pipelineSteps c :
  c ∈ computeClusterHulls STEP_COLORS nodes pipelineSteps ↔
  (cl_id c, c) ∈ foldl assignNode (initClusters STEP_COLORS pipelineSteps) nodes
  ∧ cl_nodes c ≠ [].
Proof.
  unfold computeClusterHulls.
  destruct (initClusters_spec pipelineSteps) as [Hinit _].
  destruct (assignNodes_spec nodes _ _ Hinit) as [[_ Hent] _].
  rewrite list_elem_of_In, filter_In, <- list_elem_of_In, Nat.ltb_lt.
  change (@map) with (@fmap list list_fmap).
  rewrite list_elem_of_fmap. split.
  - intros [([k c'] & -> & Hin) Hlen]. cbn in *.
    destruct (Hent _ _ Hin) as [-> _]. split; [done|].
    intros Hnil. rewrite Hnil in Hlen. cbn in Hlen. lia.
  - intros [Hin Hne]. split; [by exists (cl_id c, c)|].
    destruct (cl_nodes c); [done|cbn; lia].
Qed.
End ClusterFacts.

Lemma NoDup_fst_functional {K V : Type} (m : list (K * V)) k v1 v2 :
  NoDup (fst <$> m) → (k, v1) ∈ m → (k, v2) ∈ m → v1 = v2.
Proof.
  induction m as [|[k0 v0] m IH]; cbn; [by intros _ ?%elem_of_nil|].
  intros [Hk0 Hnd]%NoDup_cons [[= -> ->]|H1]%elem_of_cons
         [[= <-]|H2]%elem_of_cons; try done.
  - destruct Hk0. by apply (list_elem_of_fmap_2 fst) in H2.
  - destruct Hk0. by apply (list_elem_of_fmap_2 fst) in H1.
  - by apply IH.
Qed.

Lemma NoDup_fmap_List_filter {A B : Type} (f : A → B) (p : A → bool)
    (l : list A) :
  NoDup (f <$> l) → NoDup (f <$> List.filter p l).
Proof.
  induction l as [|x l IH]; cbn; [done|].
  intros [Hx Hnd]%NoDup_cons. destruct (p x); [|by apply IH].
  cbn. apply NoDup_cons. split; [|by apply IH].
  intros (y & Hxy & Hy)%list_elem_of_fmap. apply Hx.
  apply list_elem_of_In, filter_In in Hy as [Hy _].
  rewrite Hxy. by apply list_elem_of_fmap_2, list_elem_of_In.
Qed.

Module ClusterExamples.
Import Sample.

Example regions :
  map (λ c, (cl_id c, cl_name c, map Node.id (cl_nodes c)))
      (computeClusterHulls noColors
         [node "x" "s1"; orphan; node "y" "s1"] steps3)
  = [("s1", "One again", ["x"; "y"])].
Proof. reflexivity. Qed.
End ClusterExamples.

(** C6, as stated, fails: a node whose pipeline step matches no step is put
    in no region. *)
Lemma computeClusterHulls_orphan_unplaced :
  ¬ ∃ c, c ∈ computeClusterHulls Sample.noColors
               [Sample.orphan] Sample.steps3
         ∧ Sample.orphan ∈ cl_nodes c.
Proof. intros (c & Hc & _). vm_compute in Hc. by apply elem_of_nil in Hc. Qed.

(** C6 (amended): every region of the result is non-empty, is filed under
    the id of one of the steps and holds exactly the nodes whose pipeline
    step is that id; no two regions share an id; every node whose pipeline
    step is the id of some step lies in a region with that id, and in no
    other region of the result. *)
Theorem computeClusterHulls_membership SC nodes pipelineSteps :
  (∀ c, c ∈ computeClusterHulls SC nodes pipelineSteps →
     cl_nodes c ≠ []
     ∧ cl_nodes c = filter (λ n, Node.pipelineStep n = cl_id c) nodes
     ∧ cl_id c ∈ Step.id <$> pipelineSteps)
  ∧ NoDup (cl_id <$> computeClusterHulls SC nodes pipelineSteps)
  ∧ (∀ n, n ∈ nodes → Node.pipelineStep n ∈ Step.id <$> pipelineSteps →
       ∃ c, c ∈ computeClusterHulls SC nodes pipelineSteps
            ∧ cl_id c = Node.pipelineStep n ∧ n ∈ cl_nodes c)
  ∧ (∀ n c c',
       c ∈ computeClusterHulls SC nodes pipelineSteps →
       c' ∈ computeClusterHulls SC nodes pipelineSteps →
       n ∈ cl_nodes c → n ∈ cl_nodes c' → c = c').
Proof.
  destruct (initClusters_spec SC pipelineSteps) as [Hinit Hkeys].
  destruct (assignNodes_spec nodes _ _ Hinit) as [[Hnd Hent] Hsame].
  cbn [app] in Hent.
  assert (∀ c, c ∈ computeClusterHulls SC nodes pipelineSteps →
     cl_nodes c ≠ []
     ∧ cl_nodes c = filter (λ n, Node.pipelineStep n = cl_id c) nodes
     ∧ cl_id c ∈ Step.id <$> pipelineSteps) as Hregion.
  { intros c [Hin Hne]%elem_of_computeClusterHulls.
    destruct (Hent _ _ Hin) as [_ Hnodes]. repeat split; [done..|].
    apply Hkeys. rewrite <- Hsame. by apply (list_elem_of_fmap_2 fst) in Hin. }
  split; [done|]. split; [|split].
  - unfold computeClusterHulls. apply NoDup_fmap_List_filter.
    change (@map) with (@fmap list list_fmap).
    rewrite <- list_fmap_compose.
    erewrite (Forall_fmap_ext_1 _ fst); [exact Hnd|].
    apply Forall_forall. intros [k c] Hin. cbn. by destruct (Hent _ _ Hin).
  - intros n Hn Hstep.
    apply Hkeys in Hstep. rewrite <- Hsame in Hstep.
    apply list_elem_of_fmap in Hstep as ([k c] & Hk & Hin). cbn in Hk. subst k.
    destruct (Hent _ _ Hin) as [Hid Hnodes].
    assert (n ∈ cl_nodes c) as Hmem.
    { rewrite Hnodes. by apply list_elem_of_filter. }
    exists c. repeat split; [|done..].
    apply elem_of_computeClusterHulls. rewrite Hid. split; [done|].
    intros Hnil. rewrite Hnil in Hmem. by apply elem_of_nil in Hmem.
  - intros n c c' [Hin _]%elem_of_computeClusterHulls
           [Hin' _]%elem_of_computeClusterHulls Hn Hn'.
    destruct (Hent _ _ Hin) as [_ Hnodes], (Hent _ _ Hin') as [_ Hnodes'].
    rewrite Hnodes in Hn. rewrite Hnodes' in Hn'.
    apply list_elem_of_filter in Hn as [Hs _], Hn' as [Hs' _].
    rewrite <- Hs, Hs' in Hin. by eapply NoDup_fst_functional.
Qed.

Lemma computeClusterHulls_membership_witness :
  ∃ c, c ∈ computeClusterHulls Sample.noColors
             [Sample.node "x" "s1"; Sample.orphan;
              Sample.node "y" "s1"] Sample.steps3
       ∧ cl_id c = "s1"
       ∧ Sample.node "y" "s1" ∈ cl_nodes c.
Proof.
  apply (proj1 (proj2 (proj2 (computeClusterHulls_membership
           Sample.noColors
           [Sample.node "x" "s1"; Sample.orphan;
            Sample.node "y" "s1"] Sample.steps3)))
         (Sample.node "y" "s1")).
  - right. right. by left.
  - cbn. by left.
Defined.

(** ** Semantic zoom *)

Section ZoomFacts.
Import Zoom.
Local Open Scope Q_scope.

Lemma ltb_lt a b : ltb a b = true ↔ a < b.
Proof.
  unfold ltb. rewrite negb_true_iff, <- not_true_iff_false, Qle_bool_iff.
  split; [apply Qnot_le_lt|apply Qlt_not_le].
Qed.

Lemma ltb_ge a b : ltb a b = false ↔ b <= a.
Proof. unfold ltb. by rewrite negb_false_iff, Qle_bool_iff. Qed.

Lemma geb_le a b : geb a b = true ↔ b <= a.
Proof. apply Qle_bool_iff. Qed.

Lemma geb_lt a b : geb a b = false ↔ a < b.
Proof.
  unfold geb. rewrite <- not_true_iff_false, Qle_bool_iff.
  split; [apply Qnot_le_lt|apply Qlt_not_le].
Qed.

Lemma nodeRadius_lower d : 8 <= nodeRadius d.
Proof. apply Q.le_max_l. Qed.
End ZoomFacts.

(** Case analysis on every threshold test of a zoom computation. *)
Ltac zoom_cases :=
  repeat match goal with
         | |- context [Zoom.ltb ?a ?b] =>
             let H := fresh "Hlt" in
             destruct (Zoom.ltb a b) eqn:H;
             [apply ltb_lt in H|apply ltb_ge in H]
         | |- context [Zoom.geb ?a ?b] =>
             let H := fresh "Hge" in
             destruct (Zoom.geb a b) eqn:H;
             [apply geb_le in H|apply geb_lt in H]
         end;
  unfold Zoom.ABSTRACT, Zoom.MINIMAL, Zoom.DETAILED, Zoom.FULL in *;
  cbn [andb orb negb].

Module ZoomExamples.
Import Sample.

Example name_at_085 : Zoom.getZoomLevelName 0.85 = "Normal".
Proof. reflexivity. Qed.

Example radius_at_03 :
  (from_option (λ v, Zoom.circleRadius v n1) 0
     (Zoom.updateSemanticZoom (Some [n1]) 0.3) == 6.6)%Q.
Proof. vm_compute. reflexivity. Qed.

Example cards_at_16 :
  from_option (λ v, length (Zoom.detailCards v)) 0%nat
    (Zoom.updateSemanticZoom (Some [n1]) 1.6) = 1%nat.
Proof. reflexivity. Qed.

Example cards_at_149 :
  from_option (λ v, length (Zoom.detailCards v)) 7%nat
    (Zoom.updateSemanticZoom (Some [n1]) 1.49) = 0%nat.
Proof. reflexivity. Qed.
End ZoomExamples.

(** C7: as a function of the scale, [updateSemanticZoom] on the created
    elements sets the circle radius to 0.6 times the base radius below
    0.45 (band Abstract), to 0.8 times it from 0.45 up to 0.7 (band
    Minimal) and to the base radius from 0.7 on; hence the radius never
    decreases when the scale increases, nor when the band moves up from
    Abstract towards Full; and it leaves no detail card below 1.5 and one
    card per node from 1.5 on. *)
Theorem updateSemanticZoom_radius_and_cards (node : list Node.t) (scale : Q) :
  ∃ v, Zoom.updateSemanticZoom (Some node) scale = Some v
    ∧ (∀ d, (scale < 0.45)%Q →
         Zoom.levelName v = "Abstract"
         ∧ Zoom.circleRadius v d = (Zoom.nodeRadius d * 0.6)%Q)
    ∧ (∀ d, (0.45 <= scale)%Q → (scale < 0.7)%Q →
         Zoom.levelName v = "Minimal"
         ∧ Zoom.circleRadius v d = (Zoom.nodeRadius d * 0.8)%Q)
    ∧ (∀ d, (0.7 <= scale)%Q → Zoom.circleRadius v d = Zoom.nodeRadius d)
    ∧ (∀ d scale' v', (scale <= scale')%Q →
         Zoom.updateSemanticZoom (Some node) scale' = Some v' →
         (Zoom.circleRadius v d <= Zoom.circleRadius v' d)%Q)
    ∧ (∀ d scale' v',
         (Zoom.bandRank (Zoom.levelName v)
          ≤ Zoom.bandRank (Zoom.levelName v'))%nat →
         Zoom.updateSemanticZoom (Some node) scale' = Some v' →
         (Zoom.circleRadius v d <= Zoom.circleRadius v' d)%Q)
    ∧ ((scale < 1.5)%Q → Zoom.detailCards v = [])
    ∧ ((1.5 <= scale)%Q → Zoom.card_node <$> Zoom.detailCards v = node).
Proof.
  eexists. split; [reflexivity|]. cbn [Zoom.levelName Zoom.circleRadius
                                       Zoom.detailCards].
  split; [|split; [|split; [|split; [|split; [|split]]]]].
  - intros d Hs. split.
    + unfold Zoom.getZoomLevelName. zoom_cases; try done; exfalso; lra.
    + zoom_cases; try done; exfalso; lra.
  - intros d Hlo Hhi. split.
    + unfold Zoom.getZoomLevelName. zoom_cases; try done; exfalso; lra.
    + zoom_cases; try done; exfalso; lra.
  - intros d Hs. zoom_cases; try done; exfalso; lra.
  - intros d scale' v' Hle [= <-]. cbn [Zoom.circleRadius].
    pose proof (nodeRadius_lower d) as Hr.
    zoom_cases; lra.
  - intros d scale' v' Hrank [= <-]. revert Hrank.
    cbn [Zoom.circleRadius Zoom.levelName]. unfold Zoom.getZoomLevelName.
    pose proof (nodeRadius_lower d) as Hr.
    zoom_cases; intros Hrank; vm_compute in Hrank;
      first [lra | exfalso; lia | exfalso; lra].
  - intros Hs. unfold Zoom.updateDetailCards.
    zoom_cases; try done; exfalso; lra.
  - intros Hs. unfold Zoom.updateDetailCards.
    zoom_cases; try (exfalso; lra);
      change (@map) with (@fmap list list_fmap);
      rewrite <- list_fmap_compose; apply list_fmap_id.
Qed.

Lemma updateSemanticZoom_radius_and_cards_witness :
  ∃ v, Zoom.updateSemanticZoom (Some [Sample.n1]) 1.6 = Some v
       ∧ Zoom.circleRadius v Sample.n1 = Zoom.nodeRadius Sample.n1
       ∧ Zoom.card_node <$> Zoom.detailCards v = [Sample.n1].
Proof.
  destruct (updateSemanticZoom_radius_and_cards [Sample.n1] 1.6)
    as (v & Hv & _ & _ & Hnormal & _ & _ & _ & Hcards).
  exists v. split; [exact Hv|]. split.
  - apply Hnormal. vm_compute. discriminate.
  - apply Hcards. vm_compute. discriminate.
Defined.

(** ** The control handle *)

Module HandleExamples.
Import Handle.

Example full_zoomIn :
  invoke (createRelationshipGraph 800) "zoomIn" = Returned [ZoomScaleBy 1.3].
Proof. reflexivity. Qed.

Example noop_destroy :
  invoke (createRelationshipGraph 0) "destroy" = Returned [].
Proof. reflexivity. Qed.
End HandleExamples.

(** C4, evaluated on the code: for a container of width 0 the returned
    object has [update] and [destroy], both without effect, and nothing
    else; invoking [zoomIn], [zoomOut], [zoomToFit] or [resetSimulation] on
    it throws, also through the wrapper's guarded calls, which only test
    that a handle is stored.  The handle returned for a positive width has
    all six operations.  The wrapper's retry is a fixed 50 ms timer, set
    whenever the client width is 0, and leaves the stored handle as it is. *)
Theorem noop_handle_misses_zoom_operations :
  Handle.invoke (Handle.createRelationshipGraph 0) "update" = Handle.Returned []
  ∧ Handle.invoke (Handle.createRelationshipGraph 0) "destroy"
    = Handle.Returned []
  ∧ Handle.invoke (Handle.createRelationshipGraph 0) "zoomIn"
    = Handle.Threw "TypeError"
  ∧ Handle.invoke (Handle.createRelationshipGraph 0) "zoomOut"
    = Handle.Threw "TypeError"
  ∧ Handle.invoke (Handle.createRelationshipGraph 0) "zoomToFit"
    = Handle.Threw "TypeError"
  ∧ Handle.invoke (Handle.createRelationshipGraph 0) "resetSimulation"
    = Handle.Threw "TypeError"
  ∧ Handle.handleZoomIn (Some (Handle.createRelationshipGraph 0))
    = Handle.Threw "TypeError"
  ∧ (∀ width op,
       ¬ (width == 0)%Q →
       op ∈ ["update"; "destroy"; "zoomToFit"; "zoomIn"; "zoomOut";
             "resetSimulation"] →
       ∃ effects,
         Handle.invoke (Handle.createRelationshipGraph width) op
         = Handle.Returned effects)
  ∧ (∀ rectWidth vizRef,
       Handle.initViz 0 rectWidth vizRef = (vizRef, Some 50%nat)).
Proof.
  repeat (split; [reflexivity|]). split; [|done].
  intros width op Hw Hop. unfold Handle.createRelationshipGraph.
  destruct (Qeq_bool width 0) eqn:Hz; [by apply Qeq_bool_iff in Hz|].
  apply list_elem_of_In in Hop. cbn in Hop.
  destruct Hop as [<-|[<-|[<-|[<-|[<-|[<-|[]]]]]]]; by eexists.
Qed.

(** ** Instances at concrete inputs *)

Lemma calculateSimilarity_sym_zero_bounded_witness :
  calculateSimilarity Sample.mA Sample.mB
    Sample.steps2
  = calculateSimilarity Sample.mB Sample.mA
      Sample.steps2.
Proof.
  apply (proj1 (calculateSimilarity_sym_zero_bounded Sample.mA
                  Sample.mB Sample.steps2)).
  - repeat split; cbn; apply (bool_decide_unpack _); vm_compute; reflexivity.
  - repeat split; cbn; apply (bool_decide_unpack _); vm_compute; reflexivity.
Defined.

Lemma buildGraphData_no_self_loop_witness :
  Link.source Sample.eAB
  ≠ Link.target Sample.eAB.
Proof.
  apply (proj1 (buildGraphData_no_self_loop Sample.noColors
                  Sample.cat Sample.allOn)).
  apply list_elem_of_lookup. exists 0%nat. vm_compute. reflexivity.
Defined.

Module CapExamples.
Import Sample.

(** [b] keeps its explicit edge with [a] and gets one similar edge: the
    explicit edge is not counted against the cap. *)
Example capOne_links :
  summary (buildGraphData noColors cat capOne)
  = [("a", "b", explicit); ("c", "a", explicit); ("b", "c", similar)].
Proof. vm_compute. reflexivity. Qed.

Example capOne_b :
  similarDegree "b" (links (buildGraphData noColors cat capOne)) = 1%nat
  ∧ edgesAt "b" (links (buildGraphData noColors cat capOne)) = 2%nat.
Proof. split; vm_compute; reflexivity. Qed.
End CapExamples.


(** * Further properties of the code *)

(** ** Text wrapping *)

Module WrapExamples.
Import Wrap.

Example split_plain : split "deep  learning model" = ["deep"; "learning"; "model"].
Proof. reflexivity. Qed.

Example split_edges : split " a b " = [""; "a"; "b"; ""].
Proof. reflexivity. Qed.

Example split_empty : split "" = [""].
Proof. reflexivity. Qed.

(** 150 wide holds 23 characters. *)
Example wrap_name :
  wrapText "Process discovery from unstructured text documents" 150
  = ["Process discovery from"; "unstructured text"; "documents"].
Proof. vm_compute. reflexivity. Qed.

Example wrap_truncates :
  wrapText "aaaaaaaaaaaaaaaaaaaa bbbbbbbbbbbbbbbbbbbb cccccccccccccccccccc dddd" 150
  = ["aaaaaaaaaaaaaaaaaaaa"; "bbbbbbbbbbbbbbbbbbbb"; "cccccccccccccccccccc"].
Proof. vm_compute. reflexivity. Qed.

Example wrap_long_word :
  wrapText "pneumonoultramicroscopicsilicovolcanoconiosis" 150
  = ["pneumonoultramicroscopicsilicovolcanoconiosis"].
Proof. vm_compute. reflexivity. Qed.
End WrapExamples.

Section WrapFacts.
Import Wrap.

Lemma truthy_nonempty s : truthy s = true ↔ s ≠ "".
Proof. unfold truthy. by rewrite negb_true_iff, String.eqb_neq. Qed.

Lemma truthy_empty s : truthy s = false ↔ s = "".
Proof. unfold truthy. by rewrite negb_false_iff, String.eqb_eq. Qed.

(** What the loop keeps: [P] holds of every finished line and of the
    current line unless it is empty, provided [P] holds of every word and
    of every widened line that passed the width test. *)
Lemma wrapStep_keeps (P : string → Prop) maxWidth lines currentLine word :
  (∀ line, fits maxWidth line → P line) →
  P word →
  Forall P lines → (currentLine = "" ∨ P currentLine) →
  Forall P (wrapStep maxWidth (lines, currentLine) word).1
  ∧ ((wrapStep maxWidth (lines, currentLine) word).2 = ""
     ∨ P (wrapStep maxWidth (lines, currentLine) word).2).
Proof.
  intros Hfit Hword Hlines Hcur. unfold wrapStep.
  destruct (truthy currentLine) eqn:Ht.
  - apply truthy_nonempty in Ht. destruct Hcur as [?|Hcur]; [done|].
    rewrite andb_true_r.
    destruct (Zoom.ltb _ _) eqn:Hw; cbn.
    + split; [|by right]. apply Forall_app. split; [done|]. by constructor.
    + split; [done|]. right. apply Hfit. by apply ltb_ge in Hw.
  - rewrite andb_false_r. cbn. split; [done|by right].
Qed.

Lemma wrapLoop_keeps (P : string → Prop) maxWidth words lines currentLine :
  (∀ line, fits maxWidth line → P line) →
  Forall P words →
  Forall P lines → (currentLine = "" ∨ P currentLine) →
  Forall P (foldl (wrapStep maxWidth) (lines, currentLine) words).1
  ∧ ((foldl (wrapStep maxWidth) (lines, currentLine) words).2 = ""
     ∨ P (foldl (wrapStep maxWidth) (lines, currentLine) words).2).
Proof.
  intros Hfit Hwords. revert lines currentLine.
  induction Hwords as [|word words Hword _ IH]; intros lines currentLine Hl Hc.
  - done.
  - cbn [foldl].
    destruct (wrapStep_keeps P maxWidth lines currentLine word)
      as [Hl' Hc']; [done..|].
    destruct (wrapStep maxWidth (lines, currentLine) word) as [lines' cur'].
    by apply IH.
Qed.

Lemma wrapLines_keeps (P : string → Prop) maxWidth words :
  (∀ line, fits maxWidth line → P line) →
  Forall P words →
  Forall P (wrapLines words maxWidth).
Proof.
  intros Hfit Hwords. unfold wrapLines.
  destruct (wrapLoop_keeps P maxWidth words [] "") as [Hl Hc];
    [done|done|constructor|by left|].
  destruct (foldl _ _ _) as [lines cur]. cbn in *.
  destruct (truthy cur) eqn:Ht; [|done].
  apply truthy_nonempty in Ht. destruct Hc as [?|Hc]; [done|].
  apply Forall_app. split; [done|]. by constructor.
Qed.

(** Finished lines are never empty, whatever the words. *)
Lemma wrapLoop_nonempty maxWidth words lines currentLine :
  Forall (λ line, line ≠ "") lines →
  Forall (λ line, line ≠ "")
         (foldl (wrapStep maxWidth) (lines, currentLine) words).1.
Proof.
  revert lines currentLine.
  induction words as [|word words IH]; intros lines currentLine Hl; [done|].
  cbn [foldl]. unfold wrapStep at 2.
  destruct (truthy currentLine) eqn:Ht.
  - apply truthy_nonempty in Ht. rewrite andb_true_r.
    destruct (Zoom.ltb _ _); apply IH; [|done].
    apply Forall_app. split; [done|]. by constructor.
  - rewrite andb_false_r. by apply IH.
Qed.
End WrapFacts.

(** Wrapped text has at most three lines and no empty line, for every text
    and every width. *)
Theorem wrapText_three_nonempty_lines (text : string) (maxWidth : Q) :
  (length (Wrap.wrapText text maxWidth) ≤ 3)%nat
  ∧ Forall (λ line, line ≠ "") (Wrap.wrapText text maxWidth).
Proof.
  unfold Wrap.wrapText. split.
  - rewrite length_take. lia.
  - apply Forall_take. unfold Wrap.wrapLines.
    pose proof (wrapLoop_nonempty maxWidth (Wrap.split text) [] "") as Hl.
    destruct (foldl _ _ _) as [lines cur]. cbn in Hl.
    destruct (Wrap.truthy cur) eqn:Ht; [|by apply Hl].
    apply truthy_nonempty in Ht.
    apply Forall_app. split; [by apply Hl|]. by constructor.
Qed.

(** Every line of the wrapped text either fits the width or is one whole
    word of the text: a word is never broken, and words are only joined
    while the result fits. *)
Theorem wrapText_line_fits_or_is_word (text : string) (maxWidth : Q) line :
  line ∈ Wrap.wrapText text maxWidth →
  Wrap.fits maxWidth line ∨ line ∈ Wrap.split text.
Proof.
  intros Hline. unfold Wrap.wrapText in Hline.
  eapply elem_of_sublist in Hline; [|apply sublist_take].
  revert line Hline. apply Forall_forall.
  apply (wrapLines_keeps
           (λ line, Wrap.fits maxWidth line ∨ line ∈ Wrap.split text)).
  - by left.
  - apply Forall_forall. by right.
Qed.

Lemma wrapText_line_fits_or_is_word_witness :
  Wrap.fits 150 "unstructured text"
  ∨ "unstructured text"
    ∈ Wrap.split "Process discovery from unstructured text documents".
Proof.
  apply (wrapText_line_fits_or_is_word
           "Process discovery from unstructured text documents" 150).
  apply list_elem_of_lookup. exists 1%nat. vm_compute. reflexivity.
Defined.

Section JoinFacts.
Local Open Scope string_scope.

Lemma string_app_assoc (a b c : string) : (a ++ b) ++ c = a ++ (b ++ c).
Proof.
  induction a as [|x a IH]; [done|].
  change (String x ((a ++ b) ++ c) = String x (a ++ (b ++ c))).
  by rewrite IH.
Qed.

Lemma concat_snoc sep (l : list string) x :
  l ≠ [] → String.concat sep (l ++ [x])%list = String.concat sep l ++ sep ++ x.
Proof.
  induction l as [|y l IH]; [done|]. intros _.
  destruct l as [|z l]; [done|].
  change (String.concat sep ((y :: z :: l) ++ [x])%list)
    with (y ++ sep ++ String.concat sep ((z :: l) ++ [x])%list).
  rewrite IH by done.
  change (String.concat sep (y :: z :: l))
    with (y ++ sep ++ String.concat sep (z :: l)).
  by rewrite !string_app_assoc.
Qed.

Lemma concat_snoc_app sep (l : list string) x y :
  String.concat sep (l ++ [(x ++ y)%string])%list
  = String.concat sep (l ++ [x])%list ++ y.
Proof.
  destruct (decide (l = [])) as [->|Hl]; [done|].
  rewrite !concat_snoc by done. by rewrite !string_app_assoc.
Qed.
End JoinFacts.

Section WrapJoin.
Import Wrap.

Lemma wrapStep_joined maxWidth processed st word :
  word ≠ "" →
  wrapJoined processed st →
  wrapJoined (processed ++ [word]) (wrapStep maxWidth st word).
Proof.
  destruct st as [lines cur]. intros Hword Hinv. unfold wrapStep.
  destruct Hinv as [(Hc & Hl & Hp)|(Hc & Hp & Hj)]; cbn in *.
  - subst. change (truthy "") with false. rewrite andb_false_r.
    right. cbn. repeat split; done.
  - assert (truthy cur = true) as -> by (by apply truthy_nonempty).
    rewrite andb_true_r. assert (processed ++ [word] ≠ []) as Hne.
    { by destruct processed. }
    destruct (Zoom.ltb _ _); right; cbn; (split; [|split; [done|]]).
    + done.
    + rewrite concat_snoc by (by destruct lines).
      rewrite (concat_snoc _ processed) by done. by rewrite Hj.
    + by destruct cur.
    + rewrite (concat_snoc_app " " lines cur (" " ++ word)).
      rewrite (concat_snoc _ processed) by done. by rewrite Hj.
Qed.

Lemma wrapLoop_joined maxWidth words processed st :
  Forall (λ w, w ≠ "") words →
  wrapJoined processed st →
  wrapJoined (processed ++ words) (foldl (wrapStep maxWidth) st words).
Proof.
  intros Hwords. revert processed st.
  induction Hwords as [|word words Hword _ IH]; intros processed st Hinv.
  - by rewrite app_nil_r.
  - cbn [foldl]. rewrite (cons_middle word), app_assoc.
    by apply IH, wrapStep_joined.
Qed.

Lemma wrapLines_joined maxWidth words :
  Forall (λ w, w ≠ "") words →
  String.concat " " (wrapLines words maxWidth) = String.concat " " words.
Proof.
  intros Hwords. unfold wrapLines.
  pose proof (wrapLoop_joined maxWidth words [] ([], "") Hwords) as Hinv.
  cbn [app] in Hinv.
  destruct (foldl _ _ _) as [lines cur].
  destruct Hinv as [(Hc & Hl & Hp)|(Hc & Hp & Hj)]; [by left|..]; cbn in *.
  - by subst.
  - by assert (truthy cur = true) as -> by (by apply truthy_nonempty).
Qed.

Lemma noWhitespace_snoc (s : string) c :
  noWhitespace (s ++ String c "") = noWhitespace s && negb (isWhitespace c).
Proof.
  induction s as [|x s IH].
  { change (negb (isWhitespace c) && true = true && negb (isWhitespace c)).
    by rewrite andb_true_r. }
  change (negb (isWhitespace x) && noWhitespace (s ++ String c "")
          = negb (isWhitespace x) && noWhitespace s && negb (isWhitespace c)).
  by rewrite IH, andb_assoc.
Qed.

Lemma splitFrom_noWhitespace inGap current text :
  noWhitespace current = true →
  Forall (λ w, noWhitespace w = true) (splitFrom inGap current text).
Proof.
  revert inGap current. induction text as [|c text IH]; intros inGap current Hc.
  - by constructor.
  - cbn. destruct (isWhitespace c) eqn:Hws.
    + destruct inGap; [by apply IH|]. constructor; [done|]. by apply IH.
    + apply IH. by rewrite noWhitespace_snoc, Hc, Hws.
Qed.
End WrapJoin.

(** When the text has no empty piece (no whitespace at either end, and not
    empty), wrapping only turns some single spaces between words into line
    breaks: the lines before the cut to three, joined by single spaces, are
    the words joined by single spaces; so a result with fewer than three
    lines holds every word. *)
Theorem wrapText_keeps_words (text : string) (maxWidth : Q) :
  Forall (λ w, w ≠ "") (Wrap.split text) →
  String.concat " " (Wrap.wrapLines (Wrap.split text) maxWidth)
  = String.concat " " (Wrap.split text)
  ∧ ((length (Wrap.wrapText text maxWidth) < 3)%nat →
     String.concat " " (Wrap.wrapText text maxWidth)
     = String.concat " " (Wrap.split text)).
Proof.
  intros Hwords. split; [by apply wrapLines_joined|].
  unfold Wrap.wrapText. intros Hlen.
  rewrite take_ge; [by apply wrapLines_joined|].
  rewrite length_take in Hlen. lia.
Qed.

Lemma wrapText_keeps_words_witness :
  String.concat " "
    (Wrap.wrapLines (Wrap.split "deep  learning model") 60)
  = String.concat " " (Wrap.split "deep  learning model").
Proof.
  apply (proj1 (wrapText_keeps_words "deep  learning model" 60
                  ltac:(vm_compute; repeat constructor; discriminate))).
Defined.

(** [split] never returns a piece that contains a whitespace character. *)
Theorem split_pieces_without_whitespace (text : string) :
  Forall (λ w, noWhitespace w = true) (Wrap.split text).
Proof. by apply splitFrom_noWhitespace. Qed.

(** ** Semantic zoom: radius, listener, indicator *)

Module ZoomListenerExamples.
Import ZoomListener.

(** Moving from 1.46 to 1.5 is within the 0.05 tolerance: the view stays
    the one of 1.46, without detail cards. *)
Example lagging_cards :
  from_option (λ v, length (Zoom.detailCards v)) 7%nat
    (view (foldl (onZoom (Some [Sample.n1])) initial [1.46; 1.5]%Q)) = 0%nat
  ∧ (currentZoomScale (foldl (onZoom (Some [Sample.n1])) initial [1.46; 1.5]%Q)
     == 1.46)%Q.
Proof. split; vm_compute; reflexivity. Qed.
End ZoomListenerExamples.



Lemma last_cons_default {A : Type} (l : list A) (x d : A) :
  List.last (x :: l) d = List.last l x.
Proof.
  revert x d. induction l as [|y l IH]; intros x d; [done|].
  change (List.last (x :: y :: l) d) with (List.last (y :: l) d).
  by rewrite !IH.
Qed.

Section ListenerFacts.
Import ZoomListener.
Local Open Scope Q_scope.

Variable node : list Node.t.

Lemma onZoom_invariant k0 st k :
  listenerInvariant node k0 st → listenerInvariant node k (onZoom (Some node) st k).
Proof.
  intros [_ Hview]. unfold onZoom, listenerInvariant.
  destruct (Zoom.ltb _ _) eqn:Hfar; cbn [currentZoomScale view].
  - split; [|right; reflexivity].
    apply Qabs_Qle_condition. split; lra.
  - apply ltb_ge in Hfar. by split.
Qed.

Lemma listener_invariant events st k0 :
  listenerInvariant node k0 st →
  listenerInvariant node (List.last events k0) (foldl (onZoom (Some node)) st events).
Proof.
  revert st k0. induction events as [|k events IH]; intros st k0 Hinv; [done|].
  cbn [foldl]. rewrite last_cons_default.
  apply IH. by eapply onZoom_invariant.
Qed.
End ListenerFacts.

(** After any sequence of zoom events the scale the semantic view was last
    computed for is within 0.05 of the scale of the last event, and the
    view in place is the one [updateSemanticZoom] gives for that stored
    scale (or still the first drawing): the band shown can lag behind the
    live scale by up to 0.05, never by more. *)
Theorem zoom_listener_lag (node : list Node.t) (events : list Q) :
  (Qabs (ZoomListener.liveScale events
         - ZoomListener.currentZoomScale
             (foldl (ZoomListener.onZoom (Some node))
                    ZoomListener.initial events)) <= 0.05)%Q
  ∧ (ZoomListener.view
       (foldl (ZoomListener.onZoom (Some node)) ZoomListener.initial events)
     = None
     ∨ ZoomListener.view
         (foldl (ZoomListener.onZoom (Some node)) ZoomListener.initial events)
       = Zoom.updateSemanticZoom (Some node)
           (ZoomListener.currentZoomScale
              (foldl (ZoomListener.onZoom (Some node))
                     ZoomListener.initial events))).
Proof.
  apply (listener_invariant node events ZoomListener.initial
           ZoomListener.initialScale).
  split; [vm_compute; discriminate|by left].
Qed.

(** Finishing tactic for statements about band names. *)
Ltac band_facts :=
  zoom_cases;
  repeat split; intros;
  repeat match goal with H : _ ∧ _ |- _ => destruct H end;
  first [done | discriminate | lra | exfalso; lra].

(** The indicator names the five bands by the thresholds 0.45, 0.7, 1.5
    and 2.2 (the [NORMAL] constant 1.0 plays no part), and the detail
    cards agree with the name: cards exist only in the bands Detailed and
    Full Detail, and a card carries the badge lines and the full name
    exactly in Full Detail. *)
Theorem zoom_bands_and_cards_agree (node : list Node.t) (scale : Q) :
  ∃ v, Zoom.updateSemanticZoom (Some node) scale = Some v
    ∧ (Zoom.levelName v = "Abstract" ↔ (scale < 0.45)%Q)
    ∧ (Zoom.levelName v = "Minimal" ↔ (0.45 <= scale)%Q ∧ (scale < 0.7)%Q)
    ∧ (Zoom.levelName v = "Normal" ↔ (0.7 <= scale)%Q ∧ (scale < 1.5)%Q)
    ∧ (Zoom.levelName v = "Detailed" ↔ (1.5 <= scale)%Q ∧ (scale < 2.2)%Q)
    ∧ (Zoom.levelName v = "Full Detail" ↔ (2.2 <= scale)%Q)
    ∧ (∀ card, card ∈ Zoom.detailCards v →
         (Zoom.levelName v = "Detailed" ∨ Zoom.levelName v = "Full Detail")
         ∧ (Zoom.card_badges card = true ↔ Zoom.levelName v = "Full Detail")
         ∧ Zoom.card_name card
           = (if Zoom.card_badges card then Node.name (Zoom.card_node card)
              else Node.shortName (Zoom.card_node card))).
Proof.
  eexists. split; [reflexivity|].
  cbn [Zoom.levelName Zoom.detailCards]. unfold Zoom.getZoomLevelName.
  split; [band_facts|]. split; [band_facts|]. split; [band_facts|].
  split; [band_facts|]. split; [band_facts|].
  intros card. unfold Zoom.updateDetailCards.
  zoom_cases; cbn [andb negb];
    try (by intros ?%elem_of_nil); try (intros; exfalso; lra);
    change (@map) with (@fmap list list_fmap);
    intros (d & -> & _)%list_elem_of_fmap; cbn; repeat split;
    first [done | discriminate | by left | by right | idtac].
Qed.

(** ** Graph builder: nodes, strengths, degree sum *)

Section StringLengths.
Local Open Scope string_scope.

Lemma string_length_app (a b : string) :
  String.length (a ++ b) = (String.length a + String.length b)%nat.
Proof.
  induction a as [|x a IH]; [done|].
  change (Datatypes.S (String.length (a ++ b))
          = Datatypes.S (String.length a + String.length b)).
  by rewrite IH.
Qed.

Lemma string_length_substring (n m : nat) (s : string) :
  (n + m ≤ String.length s)%nat → String.length (substring n m s) = m.
Proof.
  revert n m. induction s as [|c s IH]; intros n m Hlen; cbn in *.
  - destruct n, m; cbn; lia.
  - destruct n as [|n].
    + destruct m as [|m]; [done|]. cbn. rewrite IH; lia.
    + apply IH. lia.
Qed.
End StringLengths.

(** The graph has one node per method, in catalog order and with the
    method's id, whatever the options; the short name of a node is the
    name when that has at most 30 characters, and otherwise its first 27
    characters followed by three dots, 30 characters in all. *)
Theorem buildGraphData_nodes_mirror_methods SC data options :
  Node.id <$> nodes (buildGraphData SC data options)
  = Method.id <$> methods data
  ∧ Node.name <$> nodes (buildGraphData SC data options)
    = Method.name <$> methods data
  ∧ ∀ node, node ∈ nodes (buildGraphData SC data options) →
      (String.length (Node.shortName node) ≤ 30)%nat
      ∧ ((String.length (Node.name node) ≤ 30)%nat →
         Node.shortName node = Node.name node)
      ∧ ((30 < String.length (Node.name node))%nat →
         Node.shortName node
         = (substring 0 27 (Node.name node) ++ "...")%string
         ∧ String.length (Node.shortName node) = 30%nat).
Proof.
  unfold buildGraphData. cbn [nodes].
  change (@map) with (@fmap list list_fmap).
  rewrite <- !list_fmap_compose.
  split; [by apply list_fmap_ext|]. split; [by apply list_fmap_ext|].
  intros node (m & -> & _)%list_elem_of_fmap.
  unfold compose, Node.set_degree, createNode.
  cbn [Node.shortName Node.name].
  destruct (30 <? String.length (Method.name m))%nat eqn:Hlong.
  - apply Nat.ltb_lt in Hlong.
    assert (String.length (substring 0 27 (Method.name m) ++ "...")%string
            = 30%nat) as Hlen.
    { rewrite string_length_app, string_length_substring by lia. done. }
    split; [lia|]. split; [lia|done].
  - apply Nat.ltb_ge in Hlong. split; [done|]. split; [done|lia].
Qed.

Lemma buildGraphData_nodes_mirror_methods_witness :
  (String.length
     (Node.shortName
        (Node.set_degree 2 (createNode Sample.noColors Sample.mB))) ≤ 30)%nat.
Proof.
  apply (proj2 (proj2 (buildGraphData_nodes_mirror_methods Sample.noColors
                         Sample.cat defaultOptions))
               (Node.set_degree 2 (createNode Sample.noColors Sample.mB))).
  apply list_elem_of_lookup. exists 1%nat. vm_compute. reflexivity.
Defined.

Section StageStrengths.
Local Open Scope Q_scope.



End StageStrengths.


Lemma links_from_claims SC data options e :
  e ∈ links (buildGraphData SC data options) →
  ∃ c, c ∈ claims SC data options ∧ e = callLink c.
Proof.
  intros (pre & c & post & Heq & -> & _)%links_first_claim.
  exists c. split; [|done]. rewrite Heq. set_solver.
Qed.



Section Counting.
Context {A : Type}.

Lemma sum_list_add (f g : string → nat) (ids : list string) :
  sum_list ((λ i, f i + g i)%nat <$> ids)
  = (sum_list (f <$> ids) + sum_list (g <$> ids))%nat.
Proof. induction ids as [|i ids IH]; cbn; [done|]. rewrite IH. lia. Qed.

Lemma sum_list_indicator (x : string) (ids : list string) :
  NoDup ids →
  sum_list ((λ i, if decide (x = i) then 1 else 0)%nat <$> ids)
  = (if decide (x ∈ ids) then 1 else 0)%nat.
Proof.
  induction 1 as [|i ids Hi _ IH]; cbn; [done|].
  rewrite IH. destruct (decide (x = i)) as [->|Hne].
  - rewrite decide_False by done. rewrite decide_True by (by left). done.
  - destruct (decide (x ∈ ids)).
    + rewrite decide_True by (by right). done.
    + rewrite decide_False; [done|]. by intros [?|?]%elem_of_cons.
Qed.

Lemma count_by_key (f : A → string) (ids : list string) (l : list A) :
  NoDup ids → (∀ x, x ∈ l → f x ∈ ids) →
  sum_list ((λ i, length (filter (λ x, f x = i) l)) <$> ids) = length l.
Proof.
  intros Hnd. induction l as [|x l IH]; intros Hin.
  - clear. cbn. by induction ids as [|i ids IHi].
  - cbn [length].
    transitivity
      (sum_list ((λ i, (if decide (f x = i) then 1 else 0)
                       + length (filter (λ y, f y = i) l))%nat <$> ids)).
    { f_equal. apply list_fmap_ext. intros _ i _.
      rewrite filter_cons. destruct (decide (f x = i)); cbn; lia. }
    rewrite sum_list_add, sum_list_indicator by done.
    rewrite decide_True by (apply Hin; by left).
    rewrite IH by (intros y Hy; apply Hin; by right). lia.
Qed.
End Counting.

(** When the method ids are pairwise distinct, the stored degrees of the
    nodes add up to twice the number of edges. *)
Theorem buildGraphData_degree_sum SC data options :
  NoDup (knownIds data) →
  sum_list ((λ node, default 0%nat (Node.degree node))
              <$> nodes (buildGraphData SC data options))
  = (2 * length (links (buildGraphData SC data options)))%nat.
Proof.
  intros Hnd.
  assert (∀ e, e ∈ links (buildGraphData SC data options) →
            Link.source e ∈ knownIds data ∧ Link.target e ∈ knownIds data)
    as Hknown.
  { intros e (c & Hc & ->)%links_from_claims. by apply claims_known in Hc. }
  replace ((λ node, default 0%nat (Node.degree node))
             <$> nodes (buildGraphData SC data options))
    with ((λ i, asSource i (links (buildGraphData SC data options))
                + asTarget i (links (buildGraphData SC data options)))%nat
            <$> knownIds data).
  - rewrite sum_list_add. unfold asSource, asTarget.
    rewrite !count_by_key; [lia|done|..|done|].
    + intros e He. by apply Hknown.
    + intros e He. by apply Hknown.
  - rewrite (list_fmap_compose Node.degree (default 0%nat)).
    rewrite degrees_of_graph. unfold knownIds.
    rewrite <- !list_fmap_compose. apply list_fmap_ext. intros _ m _. cbn.
    unfold buildDegreeMap. rewrite buildDegreeMap_lookup, lookup_empty.
    reflexivity.
Qed.

Lemma buildGraphData_degree_sum_witness :
  sum_list ((λ node, default 0%nat (Node.degree node))
              <$> nodes (buildGraphData Sample.noColors Sample.cat Sample.allOn))
  = (2 * length (links (buildGraphData Sample.noColors Sample.cat
                          Sample.allOn)))%nat.
Proof.
  apply (buildGraphData_degree_sum Sample.noColors Sample.cat Sample.allOn).
  apply (bool_decide_unpack _). vm_compute. reflexivity.
Defined.

(** ** Graph builder: every claimed pair gets its edge *)

Section KeyFacts.
Local Open Scope string_scope.

(** [++] on strings is not unfolded by [cbn]; this does it in [H]. *)
Ltac push_app H :=
  repeat first
    [ progress change (String.append (String ?c ?a) ?b)
        with (String c (String.append a b)) in H
    | progress change (String.append EmptyString ?b) with b in H ].

Lemma join_nil_l (t1 s2 t2 : string) :
  noDoubleDash s2 = true → startsWithDash t1 = false →
  "--" ++ t1 = s2 ++ "--" ++ t2 → s2 = "" ∧ t1 = t2.
Proof.
  intros Hs2 Ht1 Heq. destruct s2 as [|c s2]; push_app Heq.
  - split; [done|]. by injection Heq.
  - exfalso. injection Heq as Hc Heq. subst c.
    destruct s2 as [|c2 s2]; push_app Heq.
    + injection Heq as Heq. by subst t1.
    + injection Heq as Hc2 _. by subst c2.
Qed.

Lemma join_inj (s1 t1 s2 t2 : string) :
  noDoubleDash s1 = true → noDoubleDash s2 = true →
  startsWithDash t1 = false → startsWithDash t2 = false →
  s1 ++ "--" ++ t1 = s2 ++ "--" ++ t2 → s1 = s2 ∧ t1 = t2.
Proof.
  revert s2. induction s1 as [|c s1 IH]; intros s2 Hs1 Hs2 Ht1 Ht2 Heq.
  - destruct (join_nil_l t1 s2 t2) as [-> ->]; done.
  - destruct s2 as [|c' s2].
    + symmetry in Heq. by destruct (join_nil_l t2 (String c s1) t1).
    + push_app Heq. injection Heq as -> Heq.
      cbn in Hs1, Hs2. apply andb_true_iff in Hs1 as [_ Hs1], Hs2 as [_ Hs2].
      destruct (IH s2) as [-> ->]; done.
Qed.

Lemma linkKey_inj (s1 t1 s2 t2 : string) :
  plainId s1 = true → plainId t1 = true →
  plainId s2 = true → plainId t2 = true →
  linkKey s1 t1 = linkKey s2 t2 → samePair s1 t1 s2 t2.
Proof.
  unfold plainId. rewrite !andb_true_iff, !negb_true_iff.
  intros [? ?] [? ?] [? ?] [? ?]. unfold linkKey.
  destruct (String.ltb t1 s1), (String.ltb t2 s2);
    change (String.concat "--" [?a; ?b]) with (a ++ "--" ++ b);
    intros [-> ->]%join_inj; try done; unfold samePair; tauto.
Qed.
End KeyFacts.

Lemma run_addedLinks_mono cs st k :
  k ∈ addedLinks st → k ∈ addedLinks (foldl addCall st cs).
Proof.
  revert st. induction cs as [|c cs IH]; intros st Hk; [done|].
  cbn [foldl]. by apply IH, addCall_addedLinks_mono.
Qed.

Lemma run_claimed_key cs st c :
  c ∈ cs → c_source c ≠ c_target c →
  linkKey (c_source c) (c_target c) ∈ addedLinks (foldl addCall st cs).
Proof.
  revert st. induction cs as [|c0 cs IH]; intros st Hc Hne.
  - by apply elem_of_nil in Hc.
  - cbn [foldl]. apply elem_of_cons in Hc as [<-|Hc]; [|by apply IH].
    apply run_addedLinks_mono. rewrite addCall_unfold.
    destruct (accepts st c) eqn:Hacc; cbn; [set_solver|].
    destruct (decide (linkKey (c_source c) (c_target c) ∈ addedLinks st));
      [done|].
    assert (accepts st c = true) by (by apply accepts_true). congruence.
Qed.

Lemma keysBacked_run cs st :
  keysBacked st → keysBacked (foldl addCall st cs).
Proof.
  revert st. induction cs as [|c cs IH]; intros st Hst; [done|].
  cbn [foldl]. apply IH. rewrite addCall_unfold.
  destruct (accepts st c); [|done].
  intros k [Hk|Hk]%elem_of_union; cbn.
  - apply elem_of_singleton in Hk as ->.
    exists (callLink c). split; [set_solver|done].
  - destruct (Hst k Hk) as (l & Hl & Hkl). exists l. split; [set_solver|done].
Qed.

Module CollisionExamples.
(** Six pairs share the step, but only five edges are made: the pair
    [a--b], [c] finds its key taken by the pair [a], [b--c]. *)
Example one_pair_lost :
  Sample.summary (buildGraphData Sample.noColors Collision.cat
                    (Sample.only false true))
  = [("a", "b--c", sameStep); ("a", "a--b", sameStep); ("a", "c", sameStep);
     ("b--c", "a--b", sameStep); ("b--c", "c", sameStep)].
Proof. vm_compute. reflexivity. Qed.
End CollisionExamples.

Lemma samePair_sym s1 t1 s2 t2 : samePair s1 t1 s2 t2 → samePair s2 t2 s1 t1.
Proof. unfold samePair. intros [[-> ->]|[-> ->]]; tauto. Qed.

Lemma claims_linked SC data options c :
  (∀ i, i ∈ knownIds data → plainId i = true) →
  c ∈ claims SC data options → c_source c ≠ c_target c →
  ∃ e, e ∈ links (buildGraphData SC data options)
       ∧ samePair (Link.source e) (Link.target e) (c_source c) (c_target c).
Proof.
  intros Hplain Hc Hne.
  pose proof (run_claimed_key _ emptyLinks c Hc Hne) as Hkey.
  destruct (keysBacked_run (claims SC data options) emptyLinks) with
    (k := linkKey (c_source c) (c_target c)) as (e & He & Hke); [|done|].
  { by intros k Hk%elem_of_empty. }
  rewrite <- buildGraphData_links in He.
  exists e. split; [done|].
  destruct (links_from_claims _ _ _ _ He) as (c' & Hc' & ->).
  apply claims_known in Hc as [? ?], Hc' as [? ?].
  apply linkKey_inj; auto.
Qed.

(** When no method id starts with a dash or contains two dashes in a row,
    no request for an edge is lost: for every [addLink] invocation of the
    build on two different ids, the graph has an edge between those two
    ids. *)
Theorem buildGraphData_claimed_pairs_linked SC data options c :
  (∀ i, i ∈ knownIds data → plainId i = true) →
  c ∈ claims SC data options → c_source c ≠ c_target c →
  ∃ e, e ∈ links (buildGraphData SC data options)
       ∧ samePair (Link.source e) (Link.target e) (c_source c) (c_target c).
Proof. apply claims_linked. Qed.

Lemma buildGraphData_claimed_pairs_linked_witness :
  ∃ e, e ∈ links (buildGraphData Sample.noColors Sample.cat Sample.allOn)
       ∧ samePair (Link.source e) (Link.target e)
                  (c_source Sample.cBC) (c_target Sample.cBC).
Proof.
  apply (buildGraphData_claimed_pairs_linked Sample.noColors Sample.cat
           Sample.allOn Sample.cBC).
  - intros i Hi. apply list_elem_of_In in Hi. cbn in Hi.
    destruct Hi as [<-|[<-|[<-|[]]]]; reflexivity.
  - apply list_elem_of_In. vm_compute.
    repeat (first [left; reflexivity | right]).
  - discriminate.
Defined.

Lemma elem_of_calls_enabled c data options nodeMap :
  c ∈ calls data options nodeMap → stageEnabled options (c_type c) = true.
Proof.
  unfold calls. rewrite !elem_of_app.
  intros [Hc|[Hc|[Hc|[Hc|Hc]]]].
  - destruct (showExplicitRelations options) eqn:Hflag;
      [|by apply elem_of_nil in Hc].
    by apply elem_of_explicitCalls in Hc as (m & r & _ & _ & _ & ->).
  - destruct (showSameStepLinks options) eqn:Hflag;
      [|by apply elem_of_nil in Hc].
    by apply elem_of_sameStepCalls in Hc as (mi & mj & _ & _ & _ & ->).
  - destruct (showSharedModalityLinks options) eqn:Hflag;
      [|by apply elem_of_nil in Hc].
    apply elem_of_sharedModalityCalls in Hc as (mi & mj & _ & _ & _ & _ & Ht).
    by rewrite Ht.
  - destruct (showSharedTaskLinks options) eqn:Hflag;
      [|by apply elem_of_nil in Hc].
    apply elem_of_sharedTaskCalls in Hc as (mi & mj & _ & _ & _ & _ & Ht).
    by rewrite Ht.
  - destruct (showSimilarMethods options) eqn:Hflag;
      [|by apply elem_of_nil in Hc].
    by apply elem_of_similarCalls
      in Hc as (i & j & mi & mj & _ & _ & _ & _ & ->).
Qed.

(** An explicit reference always shows as an explicit edge: when explicit
    relations are on and no id starts with a dash or has two dashes in a
    row, every related-id of a method that names another method of the
    catalog is joined to it by an edge of type explicit and strength 1,
    whichever other stages are on. *)
Theorem explicit_reference_has_explicit_edge SC data options m r :
  (∀ i, i ∈ knownIds data → plainId i = true) →
  showExplicitRelations options = true →
  m ∈ methods data →
  r ∈ default [] (Method.related_method_ids m) →
  r ∈ knownIds data → r ≠ Method.id m →
  ∃ e, e ∈ links (buildGraphData SC data options)
       ∧ samePair (Link.source e) (Link.target e) (Method.id m) r
       ∧ Link.type e = explicit ∧ Link.strength e = 1%Q.
Proof.
  intros Hplain Hon Hm Hr Hknown Hne.
  set (c := {| c_source := Method.id m; c_target := r;
               c_type := explicit; c_strength := 1 |}).
  assert (c ∈ claims SC data options) as Hc.
  { unfold claims, calls. rewrite Hon. apply elem_of_app. left.
    apply elem_of_explicitCalls. exists m, r. repeat split; try done.
    by apply nodeMap_known. }
  destruct (claims_linked SC data options c Hplain Hc) as (e & He & Hsame);
    [by cbn|].
  exists e. split; [done|]. split; [done|].
  destruct (links_first_claim _ _ _ _ He)
    as (pre & c0 & post & Heq & -> & _ & Hpre).
  cbn in Hsame. rewrite Heq in Hc.
  apply elem_of_app in Hc as [Hc|Hc].
  { destruct (Hpre c Hc). by apply samePair_sym. }
  unfold claims in Heq.
  pose proof (calls_later_stage _ _ _ _ _ _ _ Heq Hc) as Hrank.
  unfold rankLe in Hrank. cbn in Hrank.
  assert (c_type c0 = explicit) as Ht by (destruct (c_type c0); cbn in *; done || lia).
  cbn. split; [done|].
  assert (c0 ∈ calls data options
                 (buildNodeMap (map (createNode SC) (methods data)))) as Hc0.
  { rewrite Heq. apply elem_of_app. right. by left. }
  apply elem_of_calls in Hc0
    as [[_ Hc0]|[[? _]|[[? _]|[[? _]|(? & _)]]]]; try congruence.
  by apply elem_of_explicitCalls in Hc0 as (? & ? & _ & _ & _ & ->).
Qed.

Lemma explicit_reference_has_explicit_edge_witness :
  ∃ e, e ∈ links (buildGraphData Sample.noColors Sample.cat Sample.allOn)
       ∧ samePair (Link.source e) (Link.target e) (Method.id Sample.mC) "a"
       ∧ Link.type e = explicit ∧ Link.strength e = 1%Q.
Proof.
  apply (explicit_reference_has_explicit_edge Sample.noColors Sample.cat
           Sample.allOn Sample.mC "a").
  - intros i Hi. apply list_elem_of_In in Hi. cbn in Hi.
    destruct Hi as [<-|[<-|[<-|[]]]]; reflexivity.
  - reflexivity.
  - right. right. by left.
  - by left.
  - by left.
  - discriminate.
Defined.

(** A stage that is switched off contributes nothing: the type of every
    edge is the type of a stage that is on. *)
Theorem buildGraphData_only_enabled_stages SC data options e :
  e ∈ links (buildGraphData SC data options) →
  stageEnabled options (Link.type e) = true.
Proof.
  intros (c & Hc & ->)%links_from_claims. cbn.
  by eapply elem_of_calls_enabled.
Qed.

Lemma buildGraphData_only_enabled_stages_witness :
  stageEnabled defaultOptions (Link.type Sample.eAB) = true.
Proof.
  apply (buildGraphData_only_enabled_stages Sample.noColors Sample.cat
           defaultOptions Sample.eAB).
  apply list_elem_of_lookup. exists 0%nat. vm_compute. reflexivity.
Defined.

(** ** The wrapper's graphs *)

Lemma similarDegree_capped SC data options n :
  (similarDegree n (links (buildGraphData SC data options))
   ≤ maxSimilarLinks options)%nat.
Proof.
  rewrite buildGraphData_links.
  destruct (run_sublist (claims SC data options) emptyLinks)
    as (added & -> & Hsub).
  cbn [emptyLinks st_links app].
  etrans; [apply sublist_filter_length, Hsub|].
  etrans; [apply similarDegree_calls|].
  unfold claims.
  destruct (calls_split data options
              (buildNodeMap (map (createNode SC) (methods data))))
    as (early & -> & Hearly).
  rewrite filter_app, (filter_none _ early) by done. cbn [app].
  destruct (showSimilarMethods options); [|cbn; lia].
  rewrite filter_all; [apply similarCalls_capped|].
  intros c Hc.
  by apply elem_of_similarCalls
    in Hc as (i & j & mi & mj & _ & _ & _ & _ & ->).
Qed.

(** The graphs the relationship page draws: every edge is explicit, or
    similar with the similar switch on and at least the chosen threshold;
    no node has more than four similar edges; and the nodes are those of
    the filtered methods, or of the whole catalog when the filter leaves
    none. *)
Theorem wrapper_graph_shape SC steps allMethods filtered showSimilar threshold :
  (∀ e, e ∈ links (buildGraphData SC
                     (Wrapper.vizData steps allMethods filtered)
                     (Wrapper.graphOptions showSimilar threshold)) →
        Link.type e = explicit
        ∨ (Link.type e = similar ∧ showSimilar = true
           ∧ (threshold <= Link.strength e)%Q))
  ∧ (∀ n, (similarDegree n
             (links (buildGraphData SC
                       (Wrapper.vizData steps allMethods filtered)
                       (Wrapper.graphOptions showSimilar threshold)))
           ≤ 4)%nat)
  ∧ Node.id <$> nodes (buildGraphData SC
                         (Wrapper.vizData steps allMethods filtered)
                         (Wrapper.graphOptions showSimilar threshold))
    = Method.id <$> (match filtered with [] => allMethods | _ => filtered end).
Proof.
  split; [|split].
  - intros e (c & Hc & ->)%links_from_claims. cbn. unfold claims in Hc.
    pose proof (elem_of_calls_enabled _ _ _ _ Hc) as Hon.
    apply elem_of_calls in Hc
      as [[Ht _]|[[Ht _]|[[Ht _]|[[Ht _]|(Ht & _ & Hc)]]]];
      rewrite Ht in *; cbn in Hon; try done; [by left|].
    right. repeat split; [done|].
    by apply elem_of_similarCalls
      in Hc as (i & j & mi & mj & _ & _ & _ & Hle & ->).
  - intros n. apply (similarDegree_capped SC _
                       (Wrapper.graphOptions showSimilar threshold)).
  - unfold buildGraphData. cbn [nodes].
    change (@map) with (@fmap list list_fmap).
    rewrite <- !list_fmap_compose. cbn [methods Wrapper.vizData].
    by destruct filtered.
Qed.

(** ** Highlighting *)

Lemma node_degree_edgesAt SC data options node :
  node ∈ nodes (buildGraphData SC data options) →
  default 0%nat (Node.degree node)
  = edgesAt (Node.id node) (links (buildGraphData SC data options)).
Proof.
  intros Hnode. rewrite edgesAt_split by (intros e; apply links_no_self_loop).
  unfold buildGraphData in Hnode. cbn [nodes] in Hnode.
  apply list_elem_of_fmap in Hnode as (n0 & -> & _). cbn.
  unfold buildDegreeMap. by rewrite buildDegreeMap_lookup, lookup_empty.
Qed.

Lemma incident_filter d (links : list Link.t) :
  length (List.filter (Highlight.incident d) links) = edgesAt (Node.id d) links.
Proof.
  unfold edgesAt. induction links as [|l links IH]; [done|].
  cbn [List.filter]. rewrite filter_cons. unfold Highlight.incident at 1.
  destruct (String.eqb_spec (Link.source l) (Node.id d)) as [Hs|Hs];
    destruct (String.eqb_spec (Link.target l) (Node.id d)) as [Ht|Ht]; cbn.
  - rewrite decide_True by (by left). cbn. by rewrite IH.
  - rewrite decide_True by (by left). cbn. by rewrite IH.
  - rewrite decide_True by (by right). cbn. by rewrite IH.
  - rewrite decide_False by (by intros [?|?]). done.
Qed.

Lemma isConnected_sym links (d n : Node.t) :
  Highlight.isConnected links (Node.id d) n
  = Highlight.isConnected links (Node.id n) d.
Proof.
  unfold Highlight.isConnected. induction links as [|l links IH]; [done|].
  cbn [existsb]. rewrite IH. f_equal.
  rewrite orb_comm. f_equal; apply andb_comm.
Qed.

(** Hovering a node of a built graph brings exactly as many links to full
    opacity as the node's stored degree, every other link goes to 0.15;
    and the dimming of nodes is mutual: [n] stays bright while [d] is
    hovered exactly when [d] stays bright while [n] is hovered. *)
Theorem hover_highlights_degree_many_links SC data options d :
  d ∈ nodes (buildGraphData SC data options) →
  length (List.filter (Highlight.incident d)
            (links (buildGraphData SC data options)))
  = default 0%nat (Node.degree d)
  ∧ (∀ l, Highlight.linkOpacity d l
          = if Highlight.incident d l then 1%Q else 0.15%Q)
  ∧ (∀ n, Highlight.nodeOpacity (links (buildGraphData SC data options))
            (Node.id d) n
          = Highlight.nodeOpacity (links (buildGraphData SC data options))
              (Node.id n) d).
Proof.
  intros Hd. split; [|split; [done|]].
  - by rewrite incident_filter, (node_degree_edgesAt SC data options).
  - intros n. unfold Highlight.nodeOpacity.
    by rewrite (String.eqb_sym (Node.id n)), isConnected_sym.
Qed.

Lemma hover_highlights_degree_many_links_witness :
  length (List.filter
            (Highlight.incident
               (Node.set_degree 2 (createNode Sample.noColors Sample.mB)))
            (links (buildGraphData Sample.noColors Sample.cat defaultOptions)))
  = default 0%nat
      (Node.degree (Node.set_degree 2 (createNode Sample.noColors Sample.mB))).
Proof.
  apply (hover_highlights_degree_many_links Sample.noColors Sample.cat
           defaultOptions
           (Node.set_degree 2 (createNode Sample.noColors Sample.mB))).
  apply list_elem_of_lookup. exists 1%nat. vm_compute. reflexivity.
Defined.

(** ** Cluster regions, step by step *)

Section RegionFacts.
Variable STEP_COLORS : string → option string.

Lemma addNodes_nil c : addNodes [] c = c.
Proof. destruct c. unfold addNodes. cbn. by rewrite app_nil_r. Qed.

Lemma addNodes_addNodes a b c : addNodes a (addNodes b c) = addNodes (b ++ a) c.
Proof. unfold addNodes. cbn. by rewrite app_assoc. Qed.

Lemma initClusters_distinct (pipelineSteps : list Step.t) :
  NoDup (Step.id <$> pipelineSteps) →
  initClusters STEP_COLORS pipelineSteps
  = (λ s, (Step.id s, regionOf STEP_COLORS [] s)) <$> pipelineSteps.
Proof.
  unfold initClusters.
  assert (∀ m : list (string * Cluster),
    NoDup ((fst <$> m) ++ (Step.id <$> pipelineSteps)) →
    foldl (λ clusters step,
             mapSet clusters (Step.id step)
               {| cl_id := Step.id step; cl_name := Step.name step;
                  cl_color := STEP_COLORS (Step.id step); cl_nodes := [] |})
          m pipelineSteps
    = m ++ ((λ s, (Step.id s, regionOf STEP_COLORS [] s)) <$> pipelineSteps))
    as Hgen.
  { induction pipelineSteps as [|step steps IH]; intros m Hnd.
    - by rewrite app_nil_r.
    - cbn [foldl fmap list_fmap]. cbn in Hnd.
      apply NoDup_app in Hnd as (Hm & Hdis & Hsteps).
      rewrite mapSet_absent by (intros Hin; apply (Hdis _ Hin); by left).
      rewrite IH.
      + by rewrite <- app_assoc.
      + rewrite fmap_app. cbn. rewrite <- app_assoc. cbn.
        apply NoDup_app. split; [done|]. split; [done|].
        exact Hsteps. }
  intros Hnd. by rewrite (Hgen []).
Qed.

Lemma assignNode_cons k0 c0 (m : list (string * Cluster)) node :
  assignNode ((k0, c0) :: m) node
  = if String.eqb k0 (Node.pipelineStep node)
    then (k0, pushNode node c0) :: m
    else (k0, c0) :: assignNode m node.
Proof.
  unfold assignNode, mapGet. cbn.
  destruct (String.eqb_spec k0 (Node.pipelineStep node)) as [->|Hne]; cbn.
  - done.
  - by destruct (List.find _ m) as [[k c]|].
Qed.

Lemma assignNode_distinct (m : list (string * Cluster)) node :
  NoDup (fst <$> m) →
  assignNode m node
  = (λ kc, (kc.1, if decide (kc.1 = Node.pipelineStep node)
                  then pushNode node kc.2 else kc.2)) <$> m.
Proof.
  induction m as [|[k0 c0] m IH]; intros Hnd; [done|].
  cbn in Hnd. apply NoDup_cons in Hnd as [Hk0 Hnd].
  rewrite assignNode_cons. cbn [fmap list_fmap fst snd].
  destruct (String.eqb_spec k0 (Node.pipelineStep node)) as [->|Hne].
  - rewrite decide_True by done. f_equal.
    rewrite <- (list_fmap_id m) at 1. apply Forall_fmap_ext_1, Forall_forall.
    intros [k c] Hin. cbn. rewrite decide_False; [done|].
    intros ->. apply Hk0. by apply (list_elem_of_fmap_2 fst) in Hin.
  - rewrite decide_False by done. by rewrite IH.
Qed.

Lemma assignNodes_distinct nodes (m : list (string * Cluster)) :
  NoDup (fst <$> m) →
  foldl assignNode m nodes
  = (λ kc, (kc.1, addNodes (filter (λ n, Node.pipelineStep n = kc.1) nodes)
                           kc.2)) <$> m.
Proof.
  revert m. induction nodes as [|node nodes IH]; intros m Hnd.
  - cbn. rewrite <- (list_fmap_id m) at 1. apply list_fmap_ext.
    intros _ [k c] _. cbn. by rewrite addNodes_nil.
  - cbn [foldl]. rewrite IH.
    + rewrite assignNode_distinct by done. rewrite <- list_fmap_compose.
      apply list_fmap_ext. intros _ [k c] _. cbn. f_equal.
      destruct (decide (k = Node.pipelineStep node)) as [->|Hne].
      * rewrite decide_True by done.
        change (pushNode node c) with (addNodes [node] c).
        by rewrite addNodes_addNodes.
      * by rewrite decide_False by done.
    + rewrite assignNode_distinct by done. rewrite <- list_fmap_compose.
      erewrite (Forall_fmap_ext_1 _ fst); [done|]. by apply Forall_forall.
Qed.
End RegionFacts.

(** With pairwise distinct step ids, the regions are, in the order of the
    pipeline steps, the steps that have at least one node, each with the
    step's id, name and color and with the nodes of that step in the order
    of the node list. *)
Theorem computeClusterHulls_by_step SC nodes pipelineSteps :
  NoDup (Step.id <$> pipelineSteps) →
  computeClusterHulls SC nodes pipelineSteps
  = List.filter (λ c, (0 <? length (cl_nodes c))%nat)
                (regionOf SC nodes <$> pipelineSteps).
Proof.
  intros Hnd. unfold computeClusterHulls. f_equal.
  rewrite initClusters_distinct by done.
  rewrite assignNodes_distinct.
  - change (@map) with (@fmap list list_fmap).
    rewrite <- !list_fmap_compose. by apply list_fmap_ext.
  - rewrite <- list_fmap_compose.
    erewrite (Forall_fmap_ext_1 _ Step.id); [done|]. by apply Forall_forall.
Qed.

Lemma computeClusterHulls_by_step_witness :
  computeClusterHulls Sample.noColors
    [Sample.node "x" "s2"; Sample.orphan; Sample.node "y" "s1"] Sample.steps2
  = List.filter (λ c, (0 <? length (cl_nodes c))%nat)
      (regionOf Sample.noColors
         [Sample.node "x" "s2"; Sample.orphan; Sample.node "y" "s1"]
         <$> Sample.steps2).
Proof.
  apply (computeClusterHulls_by_step Sample.noColors
           [Sample.node "x" "s2"; Sample.orphan; Sample.node "y" "s1"]
           Sample.steps2).
  apply (bool_decide_unpack _). vm_compute. reflexivity.
Defined.

Section CoverFacts.
Context {A : Type}.

Lemma count_by_key_among (f : A → string) (ids : list string) (l : list A) :
  NoDup ids →
  sum_list ((λ i, length (filter (λ x, f x = i) l)) <$> ids)
  = length (filter (λ x, f x ∈ ids) l).
Proof.
  intros Hnd. induction l as [|x l IH].
  - cbn. clear. by induction ids.
  - transitivity
      (sum_list ((λ i, (if decide (f x = i) then 1 else 0)
                       + length (filter (λ y, f y = i) l))%nat <$> ids)).
    { f_equal. apply list_fmap_ext. intros _ i _.
      rewrite filter_cons. destruct (decide (f x = i)); cbn; lia. }
    rewrite sum_list_add, sum_list_indicator, IH by done.
    rewrite filter_cons. destruct (decide (f x ∈ ids)); cbn; lia.
Qed.

Lemma sum_list_skip_zero (f : A → nat) (l : list A) :
  sum_list (f <$> List.filter (λ x, (0 <? f x)%nat) l) = sum_list (f <$> l).
Proof.
  induction l as [|x l IH]; [done|]. cbn [List.filter].
  rewrite (fmap_cons f x l).
  destruct (0 <? f x)%nat eqn:Hx.
  - rewrite fmap_cons. cbn [sum_list sum_list_with]. by rewrite <- IH.
  - apply Nat.ltb_ge in Hx. rewrite IH.
    change (sum_list (f x :: (f <$> l))) with (f x + sum_list (f <$> l))%nat.
    lia.
Qed.
End CoverFacts.

(** The regions hold, between them, exactly as many nodes as there are
    nodes whose pipeline step is the id of a step: none of those is left
    out or counted twice, also when step ids repeat. *)
Theorem computeClusterHulls_covers_known_steps SC nodes pipelineSteps :
  sum_list ((λ c, length (cl_nodes c))
              <$> computeClusterHulls SC nodes pipelineSteps)
  = length (filter (λ n, Node.pipelineStep n ∈ Step.id <$> pipelineSteps)
                   nodes).
Proof.
  destruct (initClusters_spec SC pipelineSteps) as [Hinit Hkeys].
  destruct (assignNodes_spec nodes _ _ Hinit) as [[Hnd Hent] Hsame].
  cbn [app] in Hent.
  unfold computeClusterHulls.
  rewrite (sum_list_skip_zero (λ c, length (cl_nodes c))).
  change (@map) with (@fmap list list_fmap).
  rewrite <- list_fmap_compose.
  rewrite (Forall_fmap_ext_1 _
             ((λ k, length (filter (λ n, Node.pipelineStep n = k) nodes))
                ∘ fst)).
  - rewrite list_fmap_compose, count_by_key_among by done.
    f_equal. apply list_filter_iff. intros n.
    by rewrite Hsame, Hkeys.
  - apply Forall_forall. intros [k c] Hin. cbn.
    by destruct (Hent _ _ Hin) as [_ ->].
Qed.

(** ** Theme *)

Module ThemeExamples.
Import Theme.

Example garbage_falls_back :
  getInitialTheme true {[THEME_STORAGE_KEY := "solarized"]} = "dark".
Proof. reflexivity. Qed.

Example stored_light : getInitialTheme true {[THEME_STORAGE_KEY := "light"]} = "light".
Proof. reflexivity. Qed.

Example no_window : getInitialTheme false {[THEME_STORAGE_KEY := "light"]} = "dark".
Proof. reflexivity. Qed.
End ThemeExamples.

Lemma getInitialTheme_cases hasWindow (storage : gmap string string) :
  (Theme.getInitialTheme hasWindow storage = Theme.LIGHT
   ∧ hasWindow = true ∧ storage !! Theme.THEME_STORAGE_KEY = Some Theme.LIGHT)
  ∨ (Theme.getInitialTheme hasWindow storage = Theme.DARK
     ∧ ¬ (hasWindow = true
          ∧ storage !! Theme.THEME_STORAGE_KEY = Some Theme.LIGHT)).
Proof.
  unfold Theme.getInitialTheme.
  destruct hasWindow; cbn [negb]; [|right; split; [done|by intros [? _]]].
  destruct (storage !! Theme.THEME_STORAGE_KEY) as [stored|];
    [|right; split; [done|by intros [_ ?]]].
  destruct (String.eqb_spec stored Theme.LIGHT) as [->|Hl]; cbn [orb].
  { by left. }
  right. destruct (String.eqb_spec stored Theme.DARK) as [->|Hd].
  - split; [done|]. by intros [_ [=]].
  - split; [done|]. intros [_ [= ->]]. done.
Qed.

(** Whatever the storage holds, the initial theme is dark or light, and it
    is light only when the stored value is exactly ["light"]; the root
    carries the [data-theme] attribute exactly for light. *)
Theorem getInitialTheme_valid hasWindow (storage : gmap string string) :
  Theme.valid (Theme.getInitialTheme hasWindow storage)
  ∧ (Theme.getInitialTheme hasWindow storage = Theme.LIGHT ↔
     hasWindow = true
     ∧ storage !! Theme.THEME_STORAGE_KEY = Some Theme.LIGHT)
  ∧ (Theme.applyTheme (Theme.getInitialTheme hasWindow storage) = Some "light"
     ↔ Theme.getInitialTheme hasWindow storage = Theme.LIGHT).
Proof.
  destruct (getInitialTheme_cases hasWindow storage)
    as [(-> & Hw & Hs)|(-> & Hno)].
  - split; [by right|]. split; split; done.
  - split; [by left|]. split.
    + split; [done|]. intros Hyes. by destruct Hno.
    + split; done.
Qed.

(** A theme set through the provider survives a reload when it is dark or
    light (any other value reloads as dark), and setting the theme touches
    no other key of the storage. *)
Theorem setTheme_persists newTheme st :
  (Theme.valid newTheme →
   Theme.theme (Theme.load (Theme.localStorage (Theme.setTheme newTheme st)))
   = newTheme)
  ∧ (¬ Theme.valid newTheme →
     Theme.theme (Theme.load (Theme.localStorage (Theme.setTheme newTheme st)))
     = Theme.DARK)
  ∧ (∀ key, key ≠ Theme.THEME_STORAGE_KEY →
       Theme.localStorage (Theme.setTheme newTheme st) !! key
       = Theme.localStorage st !! key).
Proof.
  unfold Theme.load, Theme.setTheme, Theme.getInitialTheme, Theme.valid.
  cbn [Theme.theme Theme.localStorage negb]. rewrite lookup_insert_eq.
  split; [|split].
  - by intros [->| ->].
  - intros Hbad.
    destruct (String.eqb_spec newTheme Theme.LIGHT) as [->|_];
      [destruct Hbad; by right|].
    destruct (String.eqb_spec newTheme Theme.DARK) as [->|_];
      [destruct Hbad; by left|done].
  - intros key Hkey. by rewrite lookup_insert_ne.
Qed.

Lemma setTheme_persists_witness :
  Theme.theme
    (Theme.load
       (Theme.localStorage
          (Theme.setTheme Theme.LIGHT
             {| Theme.theme := Theme.DARK; Theme.localStorage := ∅ |})))
  = Theme.LIGHT.
Proof.
  apply (proj1 (setTheme_persists Theme.LIGHT
                  {| Theme.theme := Theme.DARK; Theme.localStorage := ∅ |})).
  by right.
Defined.

(** Toggling always lands on dark or light, the result is what a reload
    shows, and two toggles bring a dark or light theme back to itself; a
    theme that is neither becomes dark on the first toggle. *)
Theorem toggleTheme_flips st :
  Theme.valid (Theme.theme (Theme.toggleTheme st))
  ∧ Theme.theme (Theme.load (Theme.localStorage (Theme.toggleTheme st)))
    = Theme.theme (Theme.toggleTheme st)
  ∧ (Theme.valid (Theme.theme st) →
     Theme.theme (Theme.toggleTheme st) ≠ Theme.theme st
     ∧ Theme.theme (Theme.toggleTheme (Theme.toggleTheme st)) = Theme.theme st)
  ∧ (¬ Theme.valid (Theme.theme st) →
     Theme.theme (Theme.toggleTheme st) = Theme.DARK).
Proof.
  unfold Theme.toggleTheme, Theme.load, Theme.setTheme, Theme.getInitialTheme,
    Theme.valid.
  cbn [Theme.theme Theme.localStorage negb]. rewrite lookup_insert_eq.
  destruct (String.eqb_spec (Theme.theme st) Theme.DARK) as [Hd|Hd].
  - rewrite Hd. split; [by right|]. split; [done|]. split.
    + intros _. split; done.
    + intros Hbad. destruct Hbad. by left.
  - split; [by left|]. split; [done|]. split; [|done].
    intros [?|Hl]; [done|]. rewrite Hl. split; done.
Qed.

Lemma toggleTheme_flips_witness :
  Theme.theme
    (Theme.toggleTheme
       (Theme.toggleTheme
          {| Theme.theme := Theme.LIGHT; Theme.localStorage := ∅ |}))
  = Theme.LIGHT.
Proof.
  apply (proj1 (proj2 (proj2 (toggleTheme_flips
           {| Theme.theme := Theme.LIGHT; Theme.localStorage := ∅ |})))).
  by right.
Defined.

(** ** Graph builder: the similarity stage serves the strongest pair first *)

Lemma sortInsert_sorted a l :
  StronglySorted atLeastAsSimilar l →
  StronglySorted atLeastAsSimilar (sortInsert a l).
Proof.
  induction 1 as [|b rest Hrest IH Hb]; cbn [sortInsert].
  - repeat constructor.
  - destruct (Qle_bool (similarity b) (similarity a)) eqn:Hle; cbn [negb].
    + apply Qle_bool_iff in Hle. constructor; [by constructor|].
      constructor; [done|].
      eapply Forall_impl; [exact Hb|]. intros x Hx.
      unfold atLeastAsSimilar in *. by eapply Qle_trans.
    + constructor; [done|].
      rewrite sortInsert_perm. constructor; [|done].
      unfold atLeastAsSimilar.
      destruct (Qlt_le_dec (similarity b) (similarity a)) as [Hlt|Hge];
        [|done].
      apply Qlt_le_weak in Hlt. apply Qle_bool_iff in Hlt. congruence.
Qed.

Lemma sortBySimilarity_sorted l :
  StronglySorted atLeastAsSimilar (sortBySimilarity l).
Proof.
  induction l as [|a l IH]; [constructor|].
  by apply sortInsert_sorted.
Qed.

(** The candidates are served in non-increasing order of score, ties in
    the order of the nested loops; so with a cap of at least one the first
    [addLink] of the similarity stage is for a candidate pair that no other
    candidate outscores. *)
Theorem similar_stage_serves_strongest_first
    methods pipelineSteps threshold maxSimilarLinks s :
  (0 < maxSimilarLinks)%nat →
  s ∈ collectSimilarities methods pipelineSteps threshold →
  StronglySorted atLeastAsSimilar
    (sortBySimilarity (collectSimilarities methods pipelineSteps threshold))
  ∧ ∃ c, head (similarCalls methods pipelineSteps threshold maxSimilarLinks)
         = Some c
         ∧ (similarity s <= c_strength c)%Q.
Proof.
  intros Hcap Hs. split; [apply sortBySimilarity_sorted|].
  unfold similarCalls.
  pose proof (sortBySimilarity_sorted
                (collectSimilarities methods pipelineSteps threshold)) as Hsorted.
  rewrite <- sortBySimilarity_perm in Hs.
  destruct (sortBySimilarity _) as [|h t]; [by apply elem_of_nil in Hs|].
  cbn [foldl]. unfold acceptStep at 2. rewrite !lookup_empty. cbn [default].
  assert ((0 <? maxSimilarLinks)%nat = true) as -> by (by apply Nat.ltb_lt).
  cbn [andb app].
  destruct (acceptLoop_sublist maxSimilarLinks t [simCall h]
              (<[sim_target h := (0 + 1)%nat]>
                 (<[sim_source h := (0 + 1)%nat]> ∅)))
    as (new & -> & _).
  exists (simCall h). split; [done|]. cbn.
  apply elem_of_cons in Hs as [->|Hs]; [apply Qle_refl|].
  inversion Hsorted as [|? ? _ Hall]; subst.
  by eapply Forall_forall in Hall.
Qed.

Lemma similar_stage_serves_strongest_first_witness :
  ∃ c, head (similarCalls (methods Sample.cat) Sample.steps2 0.35 3) = Some c
       ∧ (similarity {| sim_source := "b"; sim_target := "c";
                        similarity := calculateSimilarity Sample.mB Sample.mC
                                        Sample.steps2 |}
          <= c_strength c)%Q.
Proof.
  apply (proj2 (similar_stage_serves_strongest_first (methods Sample.cat)
                  Sample.steps2 0.35 3
                  {| sim_source := "b"; sim_target := "c";
                     similarity := calculateSimilarity Sample.mB Sample.mC
                                     Sample.steps2 |}
                  ltac:(lia)
                  ltac:(apply list_elem_of_In; vm_compute;
                        repeat (first [left; reflexivity | right])))).
Defined.

(** ** Graph builder: all methods in one step *)

Lemma length_pairs {A : Type} (l : list A) :
  (2 * length (pairs l) = length l * (length l - 1))%nat.
Proof.
  induction l as [|x l IH]; [done|].
  cbn [pairs length]. rewrite length_app, length_map. nia.
Qed.

Lemma run_all_accepted cs st :
  (∀ c, c ∈ cs → c_source c ≠ c_target c) →
  NoDup ((λ c, linkKey (c_source c) (c_target c)) <$> cs) →
  (∀ c, c ∈ cs → linkKey (c_source c) (c_target c) ∉ addedLinks st) →
  st_links (foldl addCall st cs) = st_links st ++ (callLink <$> cs).
Proof.
  revert st. induction cs as [|c cs IH]; intros st Hne Hnd Hfresh.
  - cbn. by rewrite app_nil_r.
  - cbn [foldl]. cbn in Hnd. apply NoDup_cons in Hnd as [Hc Hnd].
    assert (accepts st c = true) as Hacc.
    { apply accepts_true. split; [apply Hfresh|apply Hne]; by left. }
    rewrite IH.
    + rewrite addCall_unfold, Hacc. cbn. by rewrite <- app_assoc.
    + intros c' Hc'. apply Hne. by right.
    + done.
    + intros c' Hc'. rewrite addCall_unfold, Hacc. cbn.
      intros [Hk|Hk]%elem_of_union.
      * apply elem_of_singleton in Hk. apply Hc. rewrite <- Hk.
        by apply (list_elem_of_fmap_2
                    (λ c, linkKey (c_source c) (c_target c))).
      * revert Hk. apply Hfresh. by right.
Qed.

Lemma pairs_keys_distinct (ms : list Method.t) :
  NoDup (Method.id <$> ms) →
  (∀ m, m ∈ ms → plainId (Method.id m) = true) →
  NoDup (pairKey <$> pairs ms)
  ∧ ∀ p, p ∈ pairs ms → Method.id p.1 ≠ Method.id p.2.
Proof.
  induction ms as [|x l IH]; intros Hnd Hplain.
  - split; [constructor|]. by intros p Hp%elem_of_nil.
  - cbn in Hnd. apply NoDup_cons in Hnd as [Hx Hnd].
    destruct IH as [IHk IHne]; [done|intros m Hm; apply Hplain; by right|].
    assert (∀ y, y ∈ l → Method.id x ≠ Method.id y) as Hxy.
    { intros y Hy Heq. apply Hx. rewrite Heq. by apply list_elem_of_fmap_2. }
    split.
    + cbn [pairs]. rewrite fmap_app. apply NoDup_app. split; [|split; [|done]].
      * change (@map) with (@fmap list list_fmap).
        rewrite <- list_fmap_compose.
        rewrite (list_fmap_compose Method.id (linkKey (Method.id x))).
        apply NoDup_fmap_2_strong; [|done].
        intros i j Hi Hj Hkey.
        apply list_elem_of_fmap in Hi as (y & -> & Hy).
        apply list_elem_of_fmap in Hj as (y' & -> & Hy').
        apply linkKey_inj in Hkey as [[_ ?]|[Heq _]];
          [done|by destruct (Hxy y' Hy')|..];
          apply Hplain; (by left) || (by right).
      * intros k Hk1 Hk2.
        change (@map) with (@fmap list list_fmap) in Hk1.
        rewrite <- list_fmap_compose in Hk1.
        apply list_elem_of_fmap in Hk1 as (y & -> & Hy).
        apply list_elem_of_fmap in Hk2 as ([a b] & Hkey & Hab).
        apply elem_of_pairs_members in Hab as [Ha Hb].
        unfold pairKey, compose in Hkey. cbn in Hkey.
        apply linkKey_inj in Hkey as [[Heq _]|[Heq _]];
          [by destruct (Hxy a Ha)|by destruct (Hxy b Hb)|..];
          apply Hplain; (by left) || (by right).
    + intros p. cbn [pairs]. intros [Hp|Hp]%elem_of_app; [|by apply IHne].
      change (@map) with (@fmap list list_fmap) in Hp.
      apply list_elem_of_fmap in Hp as (y & -> & Hy). cbn. by apply Hxy.
Qed.

Lemma stepFilter_all (ms : list Method.t) stepId :
  (∀ m, m ∈ ms → Method.pipeline_step m = stepId) →
  List.filter (λ m, String.eqb (Method.pipeline_step m) stepId) ms = ms.
Proof.
  induction ms as [|m ms IH]; intros Hall; [done|].
  cbn. rewrite (Hall m) by (by left). rewrite String.eqb_refl.
  f_equal. apply IH. intros m' Hm'. apply Hall. by right.
Qed.

Lemma stepFilter_none (ms : list Method.t) stepId other :
  (∀ m, m ∈ ms → Method.pipeline_step m = stepId) → other ≠ stepId →
  List.filter (λ m, String.eqb (Method.pipeline_step m) other) ms = [].
Proof.
  induction ms as [|m ms IH]; intros Hall Hne; [done|].
  cbn. rewrite (Hall m) by (by left).
  rewrite (proj2 (String.eqb_neq stepId other)) by done.
  apply IH; [|done]. intros m' Hm'. apply Hall. by right.
Qed.

Lemma sameStepCalls_cons (ms : list Method.t) step (steps : list Step.t) :
  sameStepCalls ms (step :: steps)
  = (sameStepCall <$>
       pairs (List.filter
                (λ m, String.eqb (Method.pipeline_step m) (Step.id step)) ms))
    ++ sameStepCalls ms steps.
Proof.
  unfold sameStepCalls. cbn [mbind list_bind]. f_equal.
Qed.

Lemma sameStepCalls_other_steps (ms : list Method.t) (steps : list Step.t) stepId :
  (∀ m, m ∈ ms → Method.pipeline_step m = stepId) →
  stepId ∉ Step.id <$> steps →
  sameStepCalls ms steps = [].
Proof.
  intros Hall. induction steps as [|s steps IH]; intros Hnot; [done|].
  rewrite sameStepCalls_cons, (stepFilter_none ms stepId (Step.id s)); [|done|].
  - cbn. apply IH. intros Hin. apply Hnot. by right.
  - intros Hs. apply Hnot. rewrite <- Hs. by left.
Qed.

Lemma sameStepCalls_one_step (ms : list Method.t) (steps : list Step.t) stepId :
  (∀ m, m ∈ ms → Method.pipeline_step m = stepId) →
  NoDup (Step.id <$> steps) → stepId ∈ Step.id <$> steps →
  sameStepCalls ms steps = sameStepCall <$> pairs ms.
Proof.
  intros Hall.
  induction steps as [|step steps IH]; intros Hnd Hin.
  - by apply elem_of_nil in Hin.
  - cbn in Hnd. apply NoDup_cons in Hnd as [Hstep Hnd].
    rewrite sameStepCalls_cons.
    destruct (decide (Step.id step = stepId)) as [Heq|Hne].
    + rewrite Heq, stepFilter_all by done.
      rewrite (sameStepCalls_other_steps ms steps stepId); [|done|congruence].
      by rewrite app_nil_r.
    + rewrite (stepFilter_none ms stepId (Step.id step)) by done. cbn.
      apply IH; [done|]. apply elem_of_cons in Hin as [?|?]; [congruence|done].
Qed.

(** Same-step links alone, on a catalog whose methods all belong to one
    listed step and have distinct ids free of leading or doubled dashes:
    the graph has exactly one same-step edge per pair of methods, in the
    order of the nested loops, so [n (n - 1) / 2] edges for [n] methods. *)
Theorem sameStep_only_links_every_pair SC data options stepId :
  showExplicitRelations options = false →
  showSameStepLinks options = true →
  showSharedModalityLinks options = false →
  showSharedTaskLinks options = false →
  showSimilarMethods options = false →
  NoDup (knownIds data) →
  (∀ i, i ∈ knownIds data → plainId i = true) →
  (∀ m, m ∈ methods data → Method.pipeline_step m = stepId) →
  NoDup (Step.id <$> pipelineSteps data) →
  stepId ∈ Step.id <$> pipelineSteps data →
  links (buildGraphData SC data options)
  = callLink <$> (sameStepCall <$> pairs (methods data))
  ∧ (2 * length (links (buildGraphData SC data options))
     = length (methods data) * (length (methods data) - 1))%nat.
Proof.
  intros He Hs Hm Ht Hsim Hnd Hplain Hall Hsteps Hin.
  assert (links (buildGraphData SC data options)
          = callLink <$> (sameStepCall <$> pairs (methods data))) as Hlinks.
  { rewrite buildGraphData_links. unfold claims, calls.
    rewrite He, Hs, Hm, Ht, Hsim. cbn [app]. rewrite app_nil_r.
    rewrite (sameStepCalls_one_step _ _ stepId) by done.
    destruct (pairs_keys_distinct (methods data)) as [Hkeys Hne]; [done|..].
    { intros m Hmem. apply Hplain. by apply list_elem_of_fmap_2. }
    rewrite run_all_accepted; [done|..].
    - intros c (p & -> & Hp)%list_elem_of_fmap. by apply Hne.
    - rewrite <- list_fmap_compose. exact Hkeys.
    - intros c _. cbn. apply not_elem_of_empty. }
  split; [done|].
  rewrite Hlinks, !length_fmap. apply length_pairs.
Qed.

Lemma sameStep_only_links_every_pair_witness :
  (2 * length (links (buildGraphData Sample.noColors Sample.fiveCat
                        (Sample.only false true)))
   = length (methods Sample.fiveCat) * (length (methods Sample.fiveCat) - 1))%nat.
Proof.
  apply (proj2 (sameStep_only_links_every_pair Sample.noColors Sample.fiveCat
                  (Sample.only false true) "s1"
                  eq_refl eq_refl eq_refl eq_refl eq_refl
                  ltac:(apply (bool_decide_unpack _); vm_compute; reflexivity)
                  ltac:(intros i Hi; apply list_elem_of_In in Hi; cbn in Hi;
                        destruct Hi as [<-|[<-|[<-|[<-|[<-|[]]]]]]; reflexivity)
                  ltac:(intros m Hm; apply list_elem_of_In in Hm; cbn in Hm;
                        destruct Hm as [<-|[<-|[<-|[<-|[<-|[]]]]]]; reflexivity)
                  ltac:(apply (bool_decide_unpack _); vm_compute; reflexivity)
                  ltac:(by left))).
Defined.
